(** * The composition conductor: compiler, interpreter and fork/join barrier

    A shallow embedding of [src/conductor.js].  The conductor compiles a
    composition (an abstract syntax tree) into a flat list of states with
    relative jump offsets, and then drives that finite-state machine over an
    activation state [p = { s; params }].

    JavaScript objects are finite maps from property names to values
    ([gmap string value]); arrays are lists; numbers that the conductor
    computes with (state indices, offsets, lengths) are integers. *)

From stdpp Require Import gmap strings list fin_maps pretty.

Set Warnings "-register-all".
#[local] Open Scope string_scope.
#[local] Open Scope list_scope.
#[local] Open Scope Z_scope.

(** ** JavaScript values *)

(** The values that flow through a composition: JSON data, plus the two
    values the conductor tests for explicitly, [undefined] and functions.
    Numbers are the integers; fractions, and NaN and the infinities, which
    [JSON.stringify] writes as [null], are left out. *)
Inductive value :=
| VUndefined
| VNull
| VBool (b : bool)
| VNum (n : Z)
| VStr (s : string)
| VArr (l : list value)
| VObj (m : gmap string value)
| VFun.

(** [v === undefined || v === null]: reading or writing a property of such
    a value raises a TypeError. *)
Definition nullish (v : value) : bool :=
  match v with VUndefined | VNull => true | _ => false end.

(** [v[k]] for a property name [k] of a value that is not nullish:
    [undefined] when [v] is not an object or has no such property. *)
Definition get (k : string) (v : value) : value :=
  match v with
  | VObj m => default VUndefined (m !! k)
  | _ => VUndefined
  end.

(** [v !== undefined] *)
Definition defined (v : value) : bool :=
  match v with VUndefined => false | _ => true end.

(** JavaScript truthiness, as used by [?:], [||], [&&] and [if]. *)
Definition truthy (v : value) : bool :=
  match v with
  | VUndefined | VNull => false
  | VBool b => b
  | VNum n => negb (Z.eqb n 0)
  | VStr s => negb (String.eqb s "")
  | VArr _ | VObj _ | VFun => true
  end.

(** [const isObject = obj => typeof obj === 'object' && obj !== null && !Array.isArray(obj)] *)
Definition isObject (obj : value) : bool :=
  match obj with VObj _ => true | _ => false end.

(** What [JSON.stringify] followed by [JSON.parse] makes of a value.
    [to_json v] is [None] when [JSON.stringify v] is [undefined] ([v] is
    [undefined] or a function): such a property is left out of an object,
    and such an array element becomes [null]. *)
Fixpoint to_json (v : value) : option value :=
  match v with
  | VUndefined | VFun => None
  | VArr l => Some (VArr (map (λ x, default VNull (to_json x)) l))
  | VObj m => Some (VObj (omap to_json m))
  | _ => Some v
  end.

(** [JSON.parse(JSON.stringify(v))]; [None] when [JSON.parse] throws
    (its argument is [undefined]). *)
Definition JSON_clone (v : value) : option value := to_json v.

(** JSON data: no [undefined] and no function anywhere inside. *)
Inductive is_json : value → Prop :=
| json_null : is_json VNull
| json_bool b : is_json (VBool b)
| json_num n : is_json (VNum n)
| json_str s : is_json (VStr s)
| json_arr l : Forall is_json l → is_json (VArr l)
| json_obj m : map_Forall (λ _, is_json) m → is_json (VObj m).

(** ** Compiled states *)

Inductive state_type :=
| pass | action | function | async | stop | empty | choice
| try | let_ | exit | parallel | map_ | dynamic.

#[global] Instance state_type_eq_dec : EqDecision state_type.
Proof. solve_decision. Defined.

(** [node.exec] of a function state: [{ kind, code }]. *)
Record exec := { kind : string; code : string }.

(** One state of the compiled machine.  Every field but [parent] and [type]
    is optional, as in the object literals of the compiler. *)
Record state := {
  parent : string;
  type : state_type;
  name : option string;
  exec_ : option exec;
  next : option Z;
  then_ : option Z;
  else_ : option Z;
  catch : option Z;
  return_ : option Z;
  let_decl : option (option (gmap string value));
  tasks : option (list Z);
  path : option string
}.

(** [{ parent, type }] *)
Definition mk (parent : string) (type : state_type) : state :=
  {| parent := parent; type := type; name := None; exec_ := None; next := None;
     then_ := None; else_ := None; catch := None; return_ := None;
     let_decl := None; tasks := None; path := None |}.

Definition set_name (v : string) (st : state) : state :=
  {| parent := parent st; type := type st; name := Some v; exec_ := exec_ st;
     next := next st; then_ := then_ st; else_ := else_ st; catch := catch st;
     return_ := return_ st; let_decl := let_decl st; tasks := tasks st;
     path := path st |}.
Definition set_exec (v : exec) (st : state) : state :=
  {| parent := parent st; type := type st; name := name st; exec_ := Some v;
     next := next st; then_ := then_ st; else_ := else_ st; catch := catch st;
     return_ := return_ st; let_decl := let_decl st; tasks := tasks st;
     path := path st |}.
Definition set_next (v : Z) (st : state) : state :=
  {| parent := parent st; type := type st; name := name st; exec_ := exec_ st;
     next := Some v; then_ := then_ st; else_ := else_ st; catch := catch st;
     return_ := return_ st; let_decl := let_decl st; tasks := tasks st;
     path := path st |}.
Definition set_then (v : Z) (st : state) : state :=
  {| parent := parent st; type := type st; name := name st; exec_ := exec_ st;
     next := next st; then_ := Some v; else_ := else_ st; catch := catch st;
     return_ := return_ st; let_decl := let_decl st; tasks := tasks st;
     path := path st |}.
Definition set_else (v : Z) (st : state) : state :=
  {| parent := parent st; type := type st; name := name st; exec_ := exec_ st;
     next := next st; then_ := then_ st; else_ := Some v; catch := catch st;
     return_ := return_ st; let_decl := let_decl st; tasks := tasks st;
     path := path st |}.
Definition set_catch (v : Z) (st : state) : state :=
  {| parent := parent st; type := type st; name := name st; exec_ := exec_ st;
     next := next st; then_ := then_ st; else_ := else_ st; catch := Some v;
     return_ := return_ st; let_decl := let_decl st; tasks := tasks st;
     path := path st |}.
Definition set_return (v : Z) (st : state) : state :=
  {| parent := parent st; type := type st; name := name st; exec_ := exec_ st;
     next := next st; then_ := then_ st; else_ := else_ st; catch := catch st;
     return_ := Some v; let_decl := let_decl st; tasks := tasks st;
     path := path st |}.
Definition set_let (v : option (gmap string value)) (st : state) : state :=
  {| parent := parent st; type := type st; name := name st; exec_ := exec_ st;
     next := next st; then_ := then_ st; else_ := else_ st; catch := catch st;
     return_ := return_ st; let_decl := Some v; tasks := tasks st;
     path := path st |}.
Definition set_tasks (v : list Z) (st : state) : state :=
  {| parent := parent st; type := type st; name := name st; exec_ := exec_ st;
     next := next st; then_ := then_ st; else_ := else_ st; catch := catch st;
     return_ := return_ st; let_decl := let_decl st; tasks := Some v;
     path := path st |}.
Definition set_path (v : string) (st : state) : state :=
  {| parent := parent st; type := type st; name := name st; exec_ := exec_ st;
     next := next st; then_ := then_ st; else_ := else_ st; catch := catch st;
     return_ := return_ st; let_decl := let_decl st; tasks := tasks st;
     path := Some v |}.

(** [fsm[i].field = v]: an assignment to a field of the state at index [i].
    The compiler only ever assigns at an index that is in range. *)
Definition assign (i : nat) (f : state → state) (fsm : list state) : list state :=
  alter f i fsm.

(** ** The composition (input of the compiler) *)

(** One constructor per [node.type]; [node_path] is the optional [node.path]. *)
Inductive node :=
| Sequence (node_path : option string) (components : list node)
| Action (node_path : option string) (name : string)
| Async (node_path : option string) (components : list node)
| Function (node_path : option string) (e : exec)
| Finally (node_path : option string) (body finalizer : node)
| Let (node_path : option string) (declarations : gmap string value)
      (components : list node)
| Mask (node_path : option string) (components : list node)
| Try (node_path : option string) (body handler : node)
| If_nosave (node_path : option string) (test consequent alternate : node)
| While_nosave (node_path : option string) (test body : node)
| Dowhile_nosave (node_path : option string) (body test : node)
| Parallel (node_path : option string) (components : list node)
| Map (node_path : option string) (components : list node)
| Dynamic (node_path : option string).

Definition node_path_of (n : node) : option string :=
  match n with
  | Sequence p _ | Action p _ | Async p _ | Function p _ | Finally p _ _
  | Let p _ _ | Mask p _ | Try p _ _ | If_nosave p _ _ _ | While_nosave p _ _
  | Dowhile_nosave p _ _ | Parallel p _ | Map p _ | Dynamic p => p
  end.

(** [node.path || parent] *)
Definition path_or (p : option string) (parent : string) : string :=
  match p with
  | Some s => if String.eqb s "" then parent else s
  | None => parent
  end.

(** [if (node.path !== undefined) fsm[0].path = node.path] *)
Definition stamp (p : option string) (fsm : list state) : list state :=
  match p with
  | Some s => assign 0 (set_path s) fsm
  | None => fsm
  end.

(** [tasks.reduce((acc, cur) => { acc.push(acc[acc.length - 1] + cur.length); return acc }, [1])]:
    the running sums of the branch lengths, starting from 1. *)
Fixpoint offsets (last : Z) (tasks : list (list state)) : list Z :=
  match tasks with
  | [] => [last]
  | cur :: rest => last :: offsets (last + Z.of_nat (length cur)) rest
  end.

(** [.slice(0, -1)] *)
Definition slice_0_m1 {A} (l : list A) : list A := take (length l - 1)%nat l.

(** ** The compiler *)

(** [compile(parent, node)] with one node dispatches on [node.type] to the
    rule of [compiler]; [compile(parent, ...components)] is [components]
    below: a single [empty] state for no component, the states of the
    components one after the other otherwise. *)
Fixpoint compile (parent0 : string) (n : node) {struct n} : list state :=
  let components (parent : string) (cs : list node) : list state :=
    match cs with
    | [] => [mk parent empty]
    | [c] => compile parent c
    | _ => flat_map (compile parent) cs
    end in
  let parent := path_or (node_path_of n) parent0 in
  stamp (node_path_of n)
    match n with
    | Sequence _ cs =>
        mk parent pass :: components parent cs
    | Action _ nm =>
        [set_name nm (mk parent action)]
    | Async _ cs =>
        let body := components parent cs in
        set_return (Z.of_nat (length body) + 2) (mk parent async)
          :: body ++ [mk parent stop; mk parent pass]
    | Function _ e =>
        [set_exec e (mk parent function)]
    | Finally _ b f =>
        let finalizer := compile parent f in
        let fsm := mk parent try :: compile parent b ++ mk parent exit :: finalizer in
        assign 0 (set_catch (Z.of_nat (length fsm) - Z.of_nat (length finalizer))) fsm
    | Let _ d cs =>
        set_let (Some d) (mk parent let_) :: components parent cs ++ [mk parent exit]
    | Mask _ cs =>
        set_let None (mk parent let_) :: components parent cs ++ [mk parent exit]
    | Try _ b h =>
        let handler := compile parent h ++ [mk parent pass] in
        let fsm := mk parent try :: compile parent b ++ mk parent exit :: handler in
        let fsm := assign 0 (set_catch (Z.of_nat (length fsm) - Z.of_nat (length handler))) fsm in
        assign (length fsm - length handler - 1)
          (set_next (Z.of_nat (length handler))) fsm
    | If_nosave _ t c a =>
        let consequent := compile parent c in
        let alternate := compile parent a ++ [mk parent pass] in
        let fsm := mk parent pass :: compile parent t
                   ++ set_else (Z.of_nat (length consequent) + 1)
                        (set_then 1 (mk parent choice))
                   :: consequent ++ alternate in
        assign (length fsm - length alternate - 1)
          (set_next (Z.of_nat (length alternate))) fsm
    | While_nosave _ t b =>
        let body := compile parent b in
        let fsm := mk parent pass :: compile parent t
                   ++ set_else (Z.of_nat (length body) + 1)
                        (set_then 1 (mk parent choice))
                   :: body ++ [mk parent pass] in
        assign (length fsm - 2) (set_next (2 - Z.of_nat (length fsm))) fsm
    | Dowhile_nosave _ b t =>
        let fsm := mk parent pass :: compile parent b ++ compile parent t
                   ++ [set_else 1 (mk parent choice); mk parent pass] in
        assign (length fsm - 2) (set_then (2 - Z.of_nat (length fsm))) fsm
    | Parallel _ cs =>
        let tasks := map (λ task, compile parent task ++ [mk parent stop]) cs in
        let fsm := mk parent parallel :: concat tasks ++ [mk parent pass] in
        let fsm := assign 0 (set_return (Z.of_nat (length fsm) - 1)) fsm in
        assign 0 (set_tasks (slice_0_m1 (offsets 1 tasks))) fsm
    | Map _ cs =>
        let tasks := components parent cs in
        set_return (Z.of_nat (length tasks) + 2) (mk parent map_)
          :: tasks ++ [mk parent stop; mk parent pass]
    | Dynamic _ =>
        [mk parent dynamic]
    end.

(** [compile(parent, ...components)] *)
Definition compile_components (parent : string) (cs : list node) : list state :=
  match cs with
  | [] => [mk parent empty]
  | [c] => compile parent c
  | _ => flat_map (compile parent) cs
  end.

(** ** Activation state *)

(** A frame of [p.s.stack].  The conductor pushes [{ marker: true }] at a
    fork, [{ catch: index }] at a [try] state and [{ let: declarations }]
    (or [{ let: null }] for a mask) at a [let] state.  [frame_marker] is the
    truth value of the [marker] field; [frame_let] is [None] when the field
    is absent and [Some None] when it is [null]. *)
Record frame := {
  frame_marker : bool;
  frame_catch : option Z;
  frame_let : option (option (gmap string value))
}.

Definition marker_frame : frame :=
  {| frame_marker := true; frame_catch := None; frame_let := None |}.
Definition catch_frame (c : option Z) : frame :=
  {| frame_marker := false; frame_catch := c; frame_let := None |}.
Definition let_frame (d : option (gmap string value)) : frame :=
  {| frame_marker := false; frame_catch := None; frame_let := Some d |}.

(** [p.s.join = { barrierId, position, count }]: [position] is the index of
    the branch in the forked array and [count] the length of that array. *)
Record join := { barrierId : string; position : nat; count : nat }.

(** [p.s], which is also the [$composer] of a continuation. *)
Record composer := {
  s_state : Z;
  s_stack : list frame;
  s_session : value;
  s_redis : value;
  s_openwhisk : value;
  s_join : option join;
  s_collect : option string;
  s_resuming : bool
}.

(** [p = { s, params }] *)
Record activation := { s : composer; params : value }.

Definition with_params (v : value) (p : activation) : activation :=
  {| s := s p; params := v |}.

Definition with_state (n : Z) (p : activation) : activation :=
  {| s := {| s_state := n; s_stack := s_stack (s p); s_session := s_session (s p);
             s_redis := s_redis (s p); s_openwhisk := s_openwhisk (s p);
             s_join := s_join (s p); s_collect := s_collect (s p);
             s_resuming := s_resuming (s p) |};
     params := params p |}.

Definition with_stack (st : list frame) (p : activation) : activation :=
  {| s := {| s_state := s_state (s p); s_stack := st; s_session := s_session (s p);
             s_redis := s_redis (s p); s_openwhisk := s_openwhisk (s p);
             s_join := s_join (s p); s_collect := s_collect (s p);
             s_resuming := s_resuming (s p) |};
     params := params p |}.

Definition with_collect (c : option string) (p : activation) : activation :=
  {| s := {| s_state := s_state (s p); s_stack := s_stack (s p);
             s_session := s_session (s p);
             s_redis := s_redis (s p); s_openwhisk := s_openwhisk (s p);
             s_join := s_join (s p); s_collect := c;
             s_resuming := s_resuming (s p) |};
     params := params p |}.

(** ** Error inspection *)

(** [frame.catch || -1] *)
Definition catch_or_m1 (f : frame) : Z :=
  match frame_catch f with
  | Some c => if Z.eqb c 0 then -1 else c
  | None => -1
  end.

(** The loop of [inspect]:
    [while (p.s.stack.length > 0 && !p.s.stack[0].marker) {
       if ((p.s.state = p.s.stack.shift().catch || -1) >= 0) break }]
    on the stack and the state, which it returns. *)
Fixpoint unwind (stack : list frame) (st : Z) : list frame * Z :=
  match stack with
  | [] => ([], st)
  | f :: rest =>
      if frame_marker f then (stack, st)
      else if 0 <=? catch_or_m1 f then (rest, catch_or_m1 f)
      else unwind rest (catch_or_m1 f)
  end.

(** [inspect(p)]: wrap params if not a dictionary, branch to error handler
    if error. *)
Definition inspect (p : activation) : activation :=
  let p := if isObject (params p) then p
           else with_params (VObj {[ "value" := params p ]}) p in
  if defined (get "error" (params p)) then
    let p := with_params (VObj {[ "error" := get "error" (params p) ]}) p in
    let p := with_state (-1) p in
    let '(stack, st) := unwind (s_stack (s p)) (s_state (s p)) in
    with_state st (with_stack stack p)
  else p.

(** ** The lexical view of [run] *)

(** The first loop of [run]: [n] counts the mask frames met so far that
    have not yet hidden a [let] frame. *)
Fixpoint view_from (n : nat) (stack : list frame) : list frame :=
  match stack with
  | [] => []
  | fr :: rest =>
      match frame_let fr with
      | Some None => view_from (S n) rest
      | Some (Some _) =>
          match n with
          | O => fr :: view_from O rest
          | S n' => view_from n' rest
          end
      | None => view_from n rest
      end
  end.

Definition view (stack : list frame) : list frame := view_from 0 stack.

(** [view.reduceRight((acc, cur) => cur.let ? Object.assign(acc, cur.let) : acc, {})]:
    [Object.assign(acc, o)] overwrites in [acc] every property of [o]. *)
Definition env (view : list frame) : gmap string value :=
  foldr (λ cur acc,
           match frame_let cur with
           | Some (Some o) => o ∪ acc
           | _ => acc
           end) ∅ view.

(** ** The external store *)

(** The lists of the key/value store, by key.  An element stands for the
    JSON text kept in the store, as [JSON.parse] reads it back.  A key whose
    list is empty does not exist. *)
Abbreviation store := (gmap string (list value)).

Definition live (id : string) : string := "composer/fork/" +:+ id.
Definition done (id : string) : string := "composer/join/" +:+ id.

(** Modelled from the spec: the store client is an external collaborator;
    [lpushx] is its push-only-if-exists operation, which answers the length
    of the list after the push (0 when the key does not exist). *)
Definition lpushx (key : string) (e : value) (db : store) : store * nat :=
  match db !! key with
  | Some l => (<[key := e :: l]> db, S (length l))
  | None => (db, O)
  end.

(** Modelled from the spec: the atomic rename of the store client; it fails
    when the source key does not exist. *)
Definition rename (src dst : string) (db : store) : option store :=
  match db !! src with
  | Some l => Some (<[dst := l]> (delete src db))
  | None => None
  end.

(** Modelled from the spec: the blocking right-pop of the store client,
    [None] when it times out (answers [null]). *)
Definition brpop (key : string) (db : store) : option (value * store) :=
  match db !! key with
  | Some l =>
      match last l with
      | Some e =>
          let l' := take (length l - 1)%nat l in
          Some (e, match l' with [] => delete key db | _ => <[key := l']> db end)
      | None => None
      end
  | None => None
  end.

(** Modelled from the spec: the range read [lrange(key, 0, -1)] of the store
    client, the whole list. *)
Definition lrange (key : string) (db : store) : list value :=
  default [] (db !! key).

(** Modelled from the spec: the delete of the store client. *)
Definition del (keys : list string) (db : store) : store :=
  foldr delete db keys.

(** ** Outcomes of a handler and of [step] *)

(** What a promise is rejected with: the string given to [internalError], or
    an [Error] object with this [message]. *)
Inductive rejection :=
| Reason (msg : string)
| Exception (message : string).

(** An operation of the outside world that a handler waits for. *)
Inductive awaited :=
| Evaluate (node : state)
    (* [run(node.exec.code, p)], the evaluation of a function body *)
| Invoke (params : value) (child : composer)
    (* the invocation of the composition itself by [async] *)
| Spawn (barrier : string) (branches : list (value * composer)).
    (* the fork: push the sentinel 42 on [live(barrier)], set its expiry and
       invoke every branch with its params and its [$composer] *)

Inductive outcome :=
| Proceed
    (* the handler returned nothing: [step(p)] goes on *)
| Finished
    (* [step] reached a final state and returned nothing *)
| Resumed (action : value) (params : value) (s : composer)
    (* [{ method: 'action', action, params, state: { $composer: s } }] *)
| Rejected (r : rejection)
| Awaiting (a : awaited)
| Outside
    (* the state or a value is not one that the compiler and the conductor
       produce (a field that the handler reads is missing, [p.params] is
       nullish where a property of it is read, a value has the wrong
       shape): JavaScript goes on with NaN or an engine exception there,
       which this embedding does not follow *)
| Out_of_fuel.

(** [typeof v] *)
Definition typeof (v : value) : string :=
  match v with
  | VUndefined => "undefined"
  | VNull | VArr _ | VObj _ => "object"
  | VBool _ => "boolean"
  | VNum _ => "number"
  | VStr _ => "string"
  | VFun => "function"
  end.

(** ** Fork *)

(** The test on [p.s.redis] in [fork]; [None] when reading [p.s.redis.uri]
    raises ([p.s.redis] is [null]). *)
Definition redis_misconfigured (redis : value) : option bool :=
  match redis with
  | VNull => None
  | _ =>
      Some (negb (String.eqb (typeof redis) "object")
            || negb (String.eqb (typeof (get "uri" redis)) "string")
            || (negb (String.eqb (typeof (get "ca" redis)) "string")
                && negb (String.eqb (typeof (get "ca" redis)) "undefined")))
  end.

(** [fork({ p, node, index }, array, it)].  [it saved item] gives the params
    of a branch and the state it starts in; [uuid] is the identifier that
    [uuid()] returns. *)
Definition fork {A} (uuid : string) (p : activation) (node : state) (index : Z)
    (array : list A) (it : value → A → value * Z) : activation * outcome :=
  match return_ node with
  | None => (p, Outside)
  | Some ret =>
      let saved := params p in
      let p := with_state (index + ret) p in
      let p := with_params (VObj {[ "value" := VArr [] ]}) p in
      if Nat.eqb (length array) 0 then (p, Proceed)
      else
        match redis_misconfigured (s_redis (s p)) with
        | None => (p, Outside)
        | Some true =>
            (with_params
               (VObj {[ "error" :=
                  VStr "Parallel combinator requires a properly configured redis instance" ]}) p,
             Proceed)
        | Some false =>
            let stack := marker_frame :: s_stack (s p) in
            (p, Awaiting (Spawn uuid
               (imap (λ position item,
                        let '(branch_params, branch_state) := it saved item in
                        (branch_params,
                         {| s_state := branch_state; s_stack := stack;
                            s_session := VUndefined;
                            s_redis := s_redis (s p);
                            s_openwhisk := s_openwhisk (s p);
                            s_join := Some {| barrierId := uuid;
                                              position := position;
                                              count := length array |};
                            s_collect := None; s_resuming := false |}))
                     array)))
        end
  end.

(** ** The handlers of [conductor] *)

(** The own enumerable properties of a value, which [Object.assign({}, v)]
    copies: those of an object, the elements of an array and the characters
    of a string by index, none otherwise. *)
Definition own_properties (v : value) : gmap string value :=
  match v with
  | VObj m => m
  | VArr l => list_to_map (imap (λ (i : nat) x, (pretty i, x)) l)
  | VStr str =>
      list_to_map (imap (λ (i : nat) c, (pretty i, VStr (String c EmptyString)))
                     (String.list_ascii_of_string str))
  | _ => ∅
  end.

(** [p.params.value || []] as the array of [map]: [None] when the value is
    truthy and not an array. *)
Definition map_items (v : value) : option (list value) :=
  match v with
  | VArr l => Some l
  | _ => if truthy v then None else Some []
  end.

(** The continuation [$composer]: [p.s], which [main] built with
    [resuming: true]. *)
Definition resuming_state (c : composer) : composer :=
  {| s_state := s_state c; s_stack := s_stack c; s_session := s_session c;
     s_redis := s_redis c; s_openwhisk := s_openwhisk c; s_join := s_join c;
     s_collect := s_collect c; s_resuming := true |}.

(** [conductor[node.type]({ p, index, node, inspect, step })], with [p.s.state]
    already moved to the default next state by [step].  [node.type] ranges
    over the types that the compiler produces, so the internal error for an
    unexpected combinator does not arise.  A [try] state without [catch]
    would push [{ catch: NaN }], which [inspect] treats like a frame
    without [catch]; the other handlers are [Outside] on a state that lacks
    the field they add to [index]. *)
Definition conduct (uuid : string) (p : activation) (node : state) (index : Z)
    : activation * outcome :=
  match type node with
  | choice =>
      if nullish (params p) then (p, Outside) else
      match (if truthy (get "value" (params p)) then then_ node else else_ node) with
      | Some offset => (with_state (index + offset) p, Proceed)
      | None => (p, Outside)
      end
  | try =>
      (with_stack (catch_frame ((λ c, index + c) <$> catch node) :: s_stack (s p)) p,
       Proceed)
  | let_ =>
      match let_decl node with
      | Some None => (with_stack (let_frame None :: s_stack (s p)) p, Proceed)
      | Some (Some d) =>
          (with_stack (let_frame (Some (omap to_json d)) :: s_stack (s p)) p, Proceed)
      | None => (p, Outside)
      end
  | exit =>
      match s_stack (s p) with
      | [] => (p, Rejected (Reason "pop from an empty stack"))
      | _ :: rest => (with_stack rest p, Proceed)
      end
  | action =>
      (p, Resumed (from_option VStr VUndefined (name node)) (params p)
            (resuming_state (s p)))
  | function => (p, Awaiting (Evaluate node))
  | empty => (inspect p, Proceed)
  | pass => (p, Proceed)
  | async =>
      if nullish (params p) then (p, Outside) else
      match return_ node with
      | Some ret =>
          (with_state (index + ret) p,
           Awaiting (Invoke (params p)
             {| s_state := s_state (s p);
                s_stack := marker_frame :: s_stack (s p);
                s_session := VUndefined;
                s_redis := s_redis (s p); s_openwhisk := s_openwhisk (s p);
                s_join := None; s_collect := None; s_resuming := false |}))
      | None => (p, Outside)
      end
  | stop => (with_state (-1) p, Proceed)
  | parallel =>
      match tasks node with
      | Some ts =>
          fork uuid p node index ts
            (λ input branch, (VObj (own_properties input), index + branch))
      | None => (p, Outside)
      end
  | map_ =>
      if nullish (params p) then (p, Outside) else
      match map_items (get "value" (params p)) with
      | Some items =>
          fork uuid p node index items
            (λ input branch,
               (if isObject branch then branch else VObj {[ "value" := branch ]},
                index + 1))
      | None => (p, Outside)
      end
  | dynamic =>
      if nullish (params p) then (p, Outside) else
      match get "type" (params p), get "name" (params p) with
      | VStr t, VStr nm =>
          if String.eqb t "action"
             && String.eqb (typeof (get "params" (params p))) "object"
          then (p, Resumed (VStr nm) (get "params" (params p)) (resuming_state (s p)))
          else (inspect (with_params (VObj {[ "error" :=
                  VStr ("Incorrect use of the dynamic combinator at AST node root"
                        +:+ parent node) ]}) p), Proceed)
      | _, _ =>
          (inspect (with_params (VObj {[ "error" :=
             VStr ("Incorrect use of the dynamic combinator at AST node root"
                   +:+ parent node) ]}) p), Proceed)
      end
  end.

(** ** The [function] combinator *)

(** The handler of a [function] state returns a promise, for which [conduct]
    answers [Awaiting (Evaluate node)]; [conductor_function] below is that
    promise up to its call of [step]. *)

(** How the evaluation of a function body ends. *)
Inductive completion :=
| Normal (result : value)
| Throw.

(** What the call [(1, eval)(main)(p.params, env, require)] of [run] does.
    The body receives [p.params] itself, not a copy, and the variables of
    [env] by name: besides completing, it may write to the object
    [p.params] and assign to the variables, which [main] copies back to
    [env] when the body ends.  [params_left] is the object [p.params] after
    the call; [env_left] lists the properties of [env] after the call, in
    the order of [for (const name in env)]. *)
Record evaluation := {
  completes : completion;
  params_left : value;
  env_left : list (string * value)
}.

(** The JavaScript engine on the code of a function state, the params and
    the environment. *)
Definition evaluator := string → value → gmap string value → evaluation.


(** [p.params] once the body has run: an object stays an object and an
    array an array, with the contents that the body left; any other value
    is as it was. *)
Definition mutated (params left : value) : value :=
  match params, left with
  | VObj _, VObj m => VObj m
  | VArr _, VArr l => VArr l
  | _, _ => params
  end.

(** [element.let !== undefined && element.let[symbol] !== undefined], for the
    own properties of [element.let]; the names that an object inherits from
    its prototype are not followed. *)
Definition binds (symbol : string) (element : frame) : bool :=
  match frame_let element with
  | Some (Some o) => defined (default VUndefined (o !! symbol))
  | _ => false
  end.

(** [element.let[symbol] = value] *)
Definition let_set (symbol : string) (v : value) (element : frame) : frame :=
  match frame_let element with
  | Some (Some o) =>
      {| frame_marker := frame_marker element; frame_catch := frame_catch element;
         frame_let := Some (Some (<[symbol := v]> o)) |}
  | _ => element
  end.

(** The assignment of [set] on the first frame of a list that binds
    [symbol], as [view.find] selects it. *)
Fixpoint set_first (symbol : string) (v : value) (view : list frame) : list frame :=
  match view with
  | [] => []
  | element :: rest =>
      if binds symbol element then let_set symbol v element :: rest
      else element :: set_first symbol v rest
  end.

(** The same assignment seen from the stack: the frames of the view are the
    frames of the stack themselves, so the assignment changes the stack.
    [n] is the skip counter of the first loop of [run]. *)
Fixpoint set_from (n : nat) (symbol : string) (v : value) (stack : list frame)
    : list frame :=
  match stack with
  | [] => []
  | fr :: rest =>
      match frame_let fr with
      | Some None => fr :: set_from (S n) symbol v rest
      | Some (Some _) =>
          match n with
          | O =>
              if binds symbol fr then let_set symbol v fr :: rest
              else fr :: set_from O symbol v rest
          | S n' => fr :: set_from n' symbol v rest
          end
      | None => fr :: set_from n symbol v rest
      end
  end.

(** [set(symbol, value)] of [run]: the topmost frame of the view that binds
    [symbol], if any, receives [JSON.parse(JSON.stringify(value))]; [None]
    when [JSON.parse] throws. *)
Definition set_ (symbol : string) (v : value) (stack : list frame)
    : option (list frame) :=
  if existsb (binds symbol) (view stack) then
    (λ v, set_from O symbol v stack) <$> JSON_clone v
  else Some stack.

(** [for (const name in env) set(name, env[name])] in the [finally] of
    [run]: the stack after the loop, and whether the loop ran to its end
    ([false] when a [set] threw, which leaves the later names unwritten). *)
Fixpoint write_back (vars : list (string * value)) (stack : list frame)
    : list frame * bool :=
  match vars with
  | [] => (stack, true)
  | (name, v) :: vars =>
      match set_ name v stack with
      | Some stack => write_back vars stack
      | None => (stack, false)
      end
  end.

(** [run(f, p)]: [p] as the call leaves it and how the call completes.  An
    exception of the [finally] block replaces the completion of the body. *)
Definition run (eval : evaluator) (f : string) (p : activation)
    : activation * completion :=
  let e := eval f (params p) (env (view (s_stack (s p)))) in
  let back := write_back (env_left e) (s_stack (s p)) in
  (with_stack back.1 (with_params (mutated (params p) (params_left e)) p),
   if back.2 then completes e else Throw).

(** The [.catch] of [conductor.function]: an exception of the body becomes
    an error object. *)
Definition function_catch (node : state) (c : completion) : value :=
  match c with
  | Normal result => result
  | Throw =>
      VObj {[ "error" :=
        VStr ("Function combinator threw an exception at AST node root"
              +:+ parent node +:+ " (see log for details)") ]}
  end.

(** The value of [result] after
    [if (typeof result === 'function') result = { error: ... }]. *)
Definition function_result (node : state) (result : value) : value :=
  if String.eqb (typeof result) "function" then
    VObj {[ "error" :=
      VStr ("Function combinator evaluated to a function type at AST node root"
            +:+ parent node) ]}
  else result.

(** [p.params = JSON.parse(JSON.stringify(result === undefined ? p.params : result))]:
    the new [p.params], or [None] when [JSON.parse] throws.  [p] is the
    activation as [run] left it. *)
Definition function_params (node : state) (p : activation) (result : value)
    : option value :=
  let result := function_result node result in
  JSON_clone (if defined result then result else params p).

(** The [.then] of [conductor.function] up to its call of [step], on the
    activation [p] as [run] left it and the completion of [run]. *)
Definition function_then (node : state) (p : activation) (c : completion)
    : option activation :=
  (λ v, inspect (with_params v p)) <$> function_params node p (function_catch node c).

(** [conductor.function({ p, node, index })] up to its call of [step], on
    the activation [p] on entry: [None] when the promise is rejected.
    Reading [node.exec.code] of a state without [exec] throws inside the
    first [then], like the body. *)
Definition conductor_function (eval : evaluator) (node : state) (p : activation)
    : option activation :=
  match exec_ node with
  | Some e =>
      let '(p, c) := run eval (code e) p in
      function_then node p c
  | None => function_then node p Throw
  end.

(** ** The step loop *)

(** [{ position, params }] of a branch that ends. *)
Definition result_record (position : nat) (params : value) : value :=
  VObj {[ "position" := VNum (Z.of_nat position); "params" := params ]}.

(** [{ method: 'join', sessionId: p.s.session, barrierId, position }] *)
Definition join_marker (c : composer) (j : join) : value :=
  VObj {[ "method" := VStr "join"; "sessionId" := s_session c;
          "barrierId" := VStr (barrierId j);
          "position" := VNum (Z.of_nat (position j)) ]}.

(** [p.s.state < 0 || p.s.state >= fsm.length] *)
Definition final (fsm : list state) (p : activation) : bool :=
  (s_state (s p) <? 0) || (Z.of_nat (length fsm) <=? s_state (s p)).

(** [node.next || 1] *)
Definition next_or_1 (node : state) : Z :=
  match next node with
  | Some n => if Z.eqb n 0 then 1 else n
  | None => 1
  end.

(** One call of [step(p)], without the call of [step] that follows a handler
    which returns nothing.  [db] is the external store (its client is taken
    as connected). *)
Definition step1 (fsm : list state) (uuid : string) (db : store) (p : activation)
    : store * activation * outcome :=
  if final fsm p then
    match s_join (s p) with
    | Some j =>
        let '(db, len) :=
          lpushx (live (barrierId j))
            (default VUndefined (to_json (result_record (position j) (params p)))) db in
        let marked := with_params (join_marker (s p) j) p in
        if Nat.ltb (count j) len then
          match rename (live (barrierId j)) (done (barrierId j)) db with
          | Some db => (db, marked, Finished)
          | None => (db, p, Rejected (Exception "ERR no such key"))
          end
        else (db, marked, Finished)
    | None => (db, p, Finished)
    end
  else
    match fsm !! Z.to_nat (s_state (s p)) with
    | Some node =>
        let index := s_state (s p) in
        let p := with_state (s_state (s p) + next_or_1 node) p in
        let '(p, o) := conduct uuid p node index in
        (db, p, o)
    | None => (db, p, Outside)
    end.

(** [step(p)]: states are processed as long as their handlers return
    nothing.  The recursion of [step] is bounded by [fuel]. *)
Fixpoint step (fuel : nat) (fsm : list state) (uuid : string) (db : store)
    (p : activation) : store * activation * outcome :=
  match fuel with
  | O => (db, p, Out_of_fuel)
  | S fuel =>
      match step1 fsm uuid db p with
      | (db, p, Proceed) => step fuel fsm uuid db p
      | r => r
      end
  end.

(** ** Collect *)

(** [a[i] = v] on an array: a write past the end extends the array, and the
    slots in between are holes, which read as [undefined]. *)
Definition array_set (i : nat) (v : value) (a : list value) : list value :=
  if decide (i < length a)%nat then <[i := v]> a
  else a ++ replicate (i - length a) VUndefined ++ [v].

(** [({ position, params }) => { p.params.value[position] = params }] on one
    parsed element of the list: [None] when [p.params.value] is not an array
    or [position] is not an index. *)
Definition write_result (record : value) (p : activation) : option activation :=
  match params p, get "value" (params p), get "position" record with
  | VObj m, VArr a, VNum n =>
      if 0 <=? n then
        Some (with_params
                (VObj (<["value" := VArr (array_set (Z.to_nat n) (get "params" record) a)]> m)) p)
      else None
  | _, _, _ => None
  end.

(** [result.map(JSON.parse).map(({ position, params }) => ...)] *)
Definition write_results (result : list value) (p : activation) : option activation :=
  foldl (λ acc record, acc ≫= write_result record) (Some p) result.

(** The echo action of a collect that timed out. *)
Definition echo : string := "/whisk.system/utils/echo".

(** [collect(p, barrierId)] up to its call of [step]. *)
Definition collect1 (db : store) (p : activation) (barrier : string)
    : store * activation * outcome :=
  match brpop (done barrier) db with
  | Some (marker, db) =>
      match write_results (lrange (done barrier) db) p with
      | Some p => (del [live barrier; done barrier] db, inspect p, Proceed)
      | None => (db, p, Outside)
      end
  | None =>
      let p := with_collect (Some barrier) p in
      (db, p, Resumed (VStr echo) (params p) (resuming_state (s p)))
  end.

Definition collect (fuel : nat) (fsm : list state) (uuid : string) (db : store)
    (p : activation) (barrier : string) : store * activation * outcome :=
  match collect1 db p barrier with
  | (db, p, Proceed) => step fuel fsm uuid db p
  | r => r
  end.

(** ** The entry point *)

(** [finish(p)], for params that are not nullish *)
Definition finish (p : activation) : value :=
  if truthy (get "error" (params p)) then params p
  else VObj {[ "params" := params p ]}.

(** The [.catch] of [main]: [message] is the rejection string or the
    message of the exception, and [p.params] becomes
    [{ error: message ? `Internal error: ${message}` : 'Internal error' }]. *)
Definition internal_error (r : rejection) : value :=
  let message := match r with Reason m => m | Exception m => m end in
  VObj {[ "error" :=
    VStr (if String.eqb message "" then "Internal error"
          else "Internal error: " +:+ message) ]}.

(** What an invocation of the conductor answers. *)
Inductive response :=
| Result (v : value)
    (* [finish(p)] *)
| Continuation (action : value) (params : value) (s : composer)
    (* [{ method: 'action', action, params, state: { $composer: s } }] *)
| Suspended (a : awaited)
    (* the promise waits for the outside world *)
| No_response.
    (* [Outside], [Out_of_fuel], or [finish] on nullish params *)

(** [.catch(...).then(params => params || finish(p))] on the outcome of the
    step loop. *)
Definition settle (r : store * activation * outcome) : store * activation * response :=
  let '(db, p, o) := r in
  match o with
  | Finished =>
      if nullish (params p) then (db, p, No_response)
      else (db, p, Result (finish p))
  | Resumed a ps c => (db, p, Continuation a ps c)
  | Rejected e =>
      let p := with_params (internal_error e) p in
      (db, p, Result (finish p))
  | Awaiting a => (db, p, Suspended a)
  | Proceed | Outside | Out_of_fuel => (db, p, No_response)
  end.

(** The function that [main(composition)] returns, on the activation state
    [p] that it builds from the request ([s_resuming] is the flag of the
    incoming [$composer]).  The state is a number and the stack an array by
    their types, so the two internal errors for a malformed [$composer] do
    not arise. *)
Definition main (fuel : nat) (fsm : list state) (uuid : string) (db : store)
    (p : activation) : store * activation * response :=
  settle
    match s_collect (s p) with
    | Some barrier => collect fuel fsm uuid db (with_collect None p) barrier
    | None =>
        let p := if s_resuming (s p) then inspect p else p in
        step fuel fsm uuid db p
    end.

(** ** Records of a fork, as [collect] reads them *)

(** The writes of [collect] on the array [p.params.value], for records
    given by their position and params. *)
Definition array_writes (rs : list (nat * value)) (a : list value) : list value :=
  foldl (λ a r, array_set r.1 r.2 a) a rs.

(** The list that [lrange] reads for the records [rs]. *)
Definition branch_records (rs : list (nat * value)) : list value :=
  (λ r, result_record r.1 r.2) <$> rs.

(** ** Sample compositions and activations *)

(** An activation in state [st] with the stack [stack] and the params [ps],
    outside any fork and without redis configuration. *)
Definition activation_at (st : Z) (stack : list frame) (ps : value) : activation :=
  {| s := {| s_state := st; s_stack := stack; s_session := VStr "sid";
             s_redis := VUndefined; s_openwhisk := VUndefined;
             s_join := None; s_collect := None; s_resuming := false |};
     params := ps |}.

(** [try(action a, action h)] *)
Definition try_a_h : node := Try None (Action None "a") (Action None "h").

(** [while(action t, action b)] *)
Definition while_t_b : node := While_nosave None (Action None "t") (Action None "b").

(** An error that arrives with another field. *)
Definition failed_with_detail : activation :=
  activation_at 4 [] (VObj {[ "error" := VStr "failed"; "detail" := VNum 7 ]}).

(** An error in a branch: a mask frame and a handler at 9 above the marker
    of the fork, a handler of the parent below it. *)
Definition failed_in_branch : activation :=
  activation_at 4
    [let_frame None; catch_frame (Some 9); marker_frame; catch_frame (Some 3)]
    (VObj {[ "error" := VStr "failed" ]}).

(** The stack inside [let({x:3,y:4}, let({x:2}, mask(let({x:1}, ...))))]. *)
Definition masked_stack : list frame :=
  [let_frame (Some {[ "x" := VNum 1 ]}); let_frame None;
   let_frame (Some {[ "x" := VNum 2 ]});
   let_frame (Some {[ "x" := VNum 3; "y" := VNum 4 ]})].

(** An activation right after [fork] has installed [{ value: [] }]. *)
Definition forked : activation :=
  {| s := {| s_state := 3; s_stack := []; s_session := VStr "sid";
             s_redis := VObj {[ "uri" := VStr "redis://store" ]};
             s_openwhisk := VUndefined;
             s_join := None; s_collect := None; s_resuming := true |};
     params := VObj {[ "value" := VArr [] ]} |}.

(** A branch activation that has reached the end of its states: branch 0 of
    a fork of one branch, whose barrier still holds the sentinel. *)
Definition ended_branch : activation :=
  {| s := {| s_state := -1; s_stack := [marker_frame]; s_session := VStr "sid";
             s_redis := VObj {[ "uri" := VStr "redis://store" ]};
             s_openwhisk := VUndefined;
             s_join := Some {| barrierId := "b"; position := 0; count := 1 |};
             s_collect := None; s_resuming := false |};
     params := VObj {[ "x" := VNum 1 ]} |}.

(** The store of that barrier: the live key holds the sentinel. *)
Definition ended_branch_store : store := {[ live "b" := [VNum 42] ]}.

(** An activation about to run the [exit] of [mask()] on an empty stack. *)
Definition stray_exit : activation :=
  activation_at 2 [] (VObj {[ "x" := VNum 1 ]}).

(** An activation without any redis configuration. *)
Definition unconfigured : activation :=
  activation_at 1 [] (VObj {[ "x" := VNum 1 ]}).





(** The engine on [() => { x = 7 }] under an environment that has [x]: the
    variable is assigned, and [main] copies it back to [env]. *)
Definition assigns_x : evaluator :=
  λ _ ps en,
    {| completes := Normal VUndefined; params_left := ps;
       env_left := map_to_list (<["x" := VNum 7]> en) |}.

(** ** Branches of a fork *)

(** Modelled from the spec: [lpush] of the store client, which creates the
    list when the key does not exist. *)
Definition lpush (key : string) (e : value) (db : store) : store :=
  <[key := e :: default [] (db !! key)]> db.

(** [db.lpushAsync(live(barrierId), 42)] of [fork]: the store in which the
    branches start. *)
Definition fork_store (barrier : string) (db : store) : store :=
  lpush (live barrier) (VNum 42) db.

(** The [join] fields of the branches that an outcome spawns. *)
Definition spawned_joins (o : outcome) : list (option join) :=
  match o with
  | Awaiting (Spawn _ branches) => (λ b, s_join b.2) <$> branches
  | _ => []
  end.

(** The [join] fields that a handler hands over outside a fork: that of the
    [$composer] of a continuation and of the child of [async]. *)
Definition continued_joins (p : activation) (o : outcome) : Prop :=
  match o with
  | Resumed _ _ c => s_join c = s_join (s p)
  | Awaiting (Invoke _ child) => s_join child = None
  | _ => True
  end.

(** The position and the params that a branch pushes when it ends. *)
Definition record_of (b : activation) : nat * value :=
  (from_option position 0%nat (s_join (s b)), params b).

(** Branch [i] of a fork of two under the barrier [b], at its end with the
    params [ps]. *)
Definition branch_ended (i : nat) (ps : value) : activation :=
  {| s := {| s_state := -1; s_stack := [marker_frame]; s_session := VStr "sid";
             s_redis := VObj {[ "uri" := VStr "redis://store" ]};
             s_openwhisk := VUndefined;
             s_join := Some {| barrierId := "b"; position := i; count := 2 |};
             s_collect := None; s_resuming := false |};
     params := ps |}.

(** The store after the activations [bs] went through a call of [step] one
    after the other. *)
Definition ends (fsm : list state) (uuid : string) (db : store)
    (bs : list activation) : store :=
  foldl (λ db b, (step1 fsm uuid db b).1.1) db bs.

(** ** Stacks that the conductor builds *)

(** Every catch index on the stack is positive.  The stacks of the
    conductor are such: [conductor.try] pushes [index + node.catch] at a
    state [index >= 0], and the compiler gives every [try] state a catch of
    at least 3. *)
Definition positive_catches (stack : list frame) : Prop :=
  Forall (λ g, ∀ c, frame_catch g = Some c → 0 < c) stack.

(** A [try] state carries a catch offset of at least 3. *)
Definition try_has_catch (st : state) : Prop :=
  type st = try → ∃ c, catch st = Some c ∧ 3 ≤ c.

(** The stacks that an outcome hands over: that of the [$composer] of a
    continuation, of the child of [async], of the branches of a fork. *)
Definition outcome_stacks (o : outcome) : list (list frame) :=
  match o with
  | Resumed _ _ c => [s_stack c]
  | Awaiting (Invoke _ child) => [s_stack child]
  | Awaiting (Spawn _ branches) => (λ b, s_stack b.2) <$> branches
  | _ => []
  end.

(** ** Proof tools *)

#[global] Arguments assign : simpl never.
#[global] Arguments stamp : simpl never.

(** Lengths of lists built with [::] and [++]. *)
Ltac list_length :=
  repeat (progress (rewrite ?length_app, ?length_cons; cbn [length])); lia.

(** * Properties *)

(** ** The compiler *)

Lemma assign_head f st fsm : assign 0 f (st :: fsm) = f st :: fsm.
Proof. reflexivity. Qed.

Lemma assign_tail i f st fsm : assign (S i) f (st :: fsm) = st :: assign i f fsm.
Proof. reflexivity. Qed.

Lemma assign_length i f fsm : length (assign i f fsm) = length fsm.
Proof. apply length_alter. Qed.

Lemma assign_middle f front st back :
  assign (length front) f (front ++ st :: back) = front ++ f st :: back.
Proof.
  unfold assign. induction front as [|x front IH]; [done|].
  simpl. by rewrite <- IH.
Qed.

Lemma stamp_length p fsm : length (stamp p fsm) = length fsm.
Proof. destruct p; [apply assign_length | done]. Qed.

(** The states after the first one are not touched by the path stamp. *)
Lemma stamp_cons p st fsm :
  stamp p (st :: fsm) = from_option (λ s, set_path s st) st p :: fsm.
Proof. by destruct p. Qed.

(** Every compiled node has at least one state. *)
Lemma compile_length_pos parent n : (0 < length (compile parent n))%nat.
Proof.
  destruct n; cbn [compile]; rewrite stamp_length, ?assign_length;
    cbn [length]; lia.
Qed.

Lemma compile_snoc parent n :
  ∃ front st, compile parent n = front ++ [st].
Proof.
  pose proof (compile_length_pos parent n) as H.
  destruct (compile parent n) as [|x l] eqn:E using rev_ind; [simpl in H; lia|].
  eauto.
Qed.

(** Induction on compositions, with the hypothesis for every component. *)
Lemma node_induction (P : node → Prop) :
  (∀ p cs, Forall P cs → P (Sequence p cs)) →
  (∀ p nm, P (Action p nm)) →
  (∀ p cs, Forall P cs → P (Async p cs)) →
  (∀ p e, P (Function p e)) →
  (∀ p b f, P b → P f → P (Finally p b f)) →
  (∀ p d cs, Forall P cs → P (Let p d cs)) →
  (∀ p cs, Forall P cs → P (Mask p cs)) →
  (∀ p b h, P b → P h → P (Try p b h)) →
  (∀ p t c a, P t → P c → P a → P (If_nosave p t c a)) →
  (∀ p t b, P t → P b → P (While_nosave p t b)) →
  (∀ p b t, P b → P t → P (Dowhile_nosave p b t)) →
  (∀ p cs, Forall P cs → P (Parallel p cs)) →
  (∀ p cs, Forall P cs → P (Map p cs)) →
  (∀ p, P (Dynamic p)) →
  ∀ n, P n.
Proof.
  intros Hseq Hact Hasync Hfun Hfin Hlet Hmask Htry Hif Hwhile Hdo Hpar Hmap Hdyn.
  fix IH 1.
  assert (Hall : ∀ cs, Forall P cs).
  { fix IHcs 1. intros [|c cs]; constructor; [apply IH | apply IHcs]. }
  intros [p cs|p nm|p cs|p e|p b f|p d cs|p cs|p b h|p t c a|p t b|p b t|p cs|p cs|p].
  - apply Hseq, Hall.
  - apply Hact.
  - apply Hasync, Hall.
  - apply Hfun.
  - apply Hfin; apply IH.
  - apply Hlet, Hall.
  - apply Hmask, Hall.
  - apply Htry; apply IH.
  - apply Hif; apply IH.
  - apply Hwhile; apply IH.
  - apply Hdo; apply IH.
  - apply Hpar, Hall.
  - apply Hmap, Hall.
  - apply Hdyn.
Qed.

Lemma compile_components_length parent1 parent2 cs :
  Forall (λ n, ∀ p1 p2, length (compile p1 n) = length (compile p2 n)) cs →
  length (compile_components parent1 cs) = length (compile_components parent2 cs).
Proof.
  intros Hcs. unfold compile_components.
  destruct Hcs as [|c cs Hc Hcs]; [done|].
  destruct Hcs as [|c' cs Hc' Hcs]; [apply Hc|].
  cbn [flat_map]. rewrite !length_app, (Hc parent1 parent2), (Hc' parent1 parent2).
  do 2 f_equal. induction Hcs as [|x l Hx Hl IHl]; [done|].
  cbn [flat_map]. by rewrite !length_app, (Hx parent1 parent2), IHl.
Qed.

(** The number of states of a compiled node does not depend on the parent
    path it is compiled under. *)
Lemma compile_length parent1 parent2 n :
  length (compile parent1 n) = length (compile parent2 n).
Proof.
  revert parent1 parent2.
  induction n as [p cs IH|p nm|p cs IH|p e|p b f IHb IHf|p d cs IH|p cs IH
                  |p b h IHb IHh|p t c a IHt IHc IHa|p t b IHt IHb|p b t IHb IHt
                  |p cs IH|p cs IH|p] using node_induction;
    intros parent1 parent2; cbn [compile node_path_of];
    rewrite ?stamp_length, ?assign_length;
    try change (match cs with
                | [] => [mk ?q empty]
                | [c] => compile ?q c
                | c :: _ :: _ => flat_map (compile ?q) cs
                end) with (compile_components q cs);
    try (pose proof (compile_components_length
                       (path_or p parent1) (path_or p parent2) cs IH) as Ecs);
    repeat match goal with
           | H : ∀ p1 p2, length (compile p1 ?x) = length (compile p2 ?x) |- _ =>
               pose proof (H (path_or p parent1) (path_or p parent2)); clear H
           end;
    repeat (progress (rewrite ?length_app, ?length_cons; cbn [length]));
    try lia.
  match goal with |- S (?x + 1) = S (?y + 1) => cut (x = y); [intros ->; reflexivity|] end.
  clear Ecs. induction IH as [|x l Hx Hl IHl]; [done|].
  cbn [map concat].
  repeat (progress (rewrite ?length_app, ?length_cons; cbn [length])).
  specialize (Hx (path_or p parent1) (path_or p parent2)). lia.
Qed.

(** C1, as stated, fails: the catch offset of [try(action a, action h)] is 3,
    one more than the length of the compiled body plus one. *)
Lemma try_catch_is_not_body_length_plus_1 :
  catch <$> head (compile "" try_a_h)
  ≠ Some (Some (Z.of_nat (length (compile "" (Action None "a"))) + 1)).
Proof. vm_compute. discriminate. Qed.

(** C1 (amended): the compiled machine of every [try] node and of every
    [finally] node begins with a [try] state whose relative catch offset is
    the length of the compiled body plus two, the offset of the first state
    after the [exit] that closes the body. *)
Theorem compile_try_finally_catch parent parent' p body other :
  let len := Z.of_nat (length (compile parent' body)) in
  (∃ st rest, compile parent (Try p body other) = st :: rest
              ∧ type st = try ∧ catch st = Some (len + 2))
  ∧ (∃ st rest, compile parent (Finally p body other) = st :: rest
                ∧ type st = try ∧ catch st = Some (len + 2)).
Proof.
  intros len. subst len.
  rewrite (compile_length parent' (path_or p parent) body). split.
  - cbn [compile node_path_of].
    set (q := path_or p parent).
    set (b := compile q body). set (h := compile q other).
    rewrite assign_head, !length_cons, !length_app, !length_cons, length_app.
    simpl length.
    replace (S (length b + S (length h + 1)) - (length h + 1) - 1)%nat
      with (S (length b)) by lia.
    rewrite assign_tail, stamp_cons.
    eexists _, _. split; [reflexivity|].
    destruct p; simpl; (split; [done|]); f_equal; lia.
  - cbn [compile node_path_of].
    set (q := path_or p parent).
    set (b := compile q body). set (f := compile q other).
    rewrite assign_head, stamp_cons.
    eexists _, _. split; [reflexivity|].
    rewrite !length_cons, !length_app, !length_cons.
    destruct p; simpl; (split; [done|]); f_equal; lia.
Qed.

(** C2, as stated, fails: in the machine of [while(action t, action b)] the
    trailing [pass] state carries no [next] at all. *)
Lemma while_trailing_pass_has_no_next :
  next <$> last (compile "" while_t_b)
  ≠ Some (Some (- (Z.of_nat (length (compile "" while_t_b)) - 2))).
Proof. vm_compute. discriminate. Qed.

(** C2 (amended): [while_nosave(test, body)] compiles to
    [pass] ++ compile(test) ++ [choice{then=1, else=len(body)+1}]
    ++ compile(body) ++ [pass], where the last state of the compiled body,
    the state before the trailing [pass], carries next = -(len-2), [len]
    being the total compiled length; the trailing [pass] carries no next. *)
Theorem compile_while_nosave parent p test body :
  let parent' := path_or p parent in
  let t := compile parent' test in
  let b := compile parent' body in
  let fsm := compile parent (While_nosave p test body) in
  let len := Z.of_nat (length fsm) in
  ∃ front st,
    b = front ++ [st]
    ∧ fsm = stamp p
              ([mk parent' pass] ++ t
               ++ [set_else (Z.of_nat (length b) + 1) (set_then 1 (mk parent' choice))]
               ++ front ++ [set_next (- (len - 2)) st] ++ [mk parent' pass])
    ∧ last fsm = Some (mk parent' pass)
    ∧ next (mk parent' pass) = None
    ∧ next <$> fsm !! (length fsm - 2)%nat = Some (Some (- (len - 2))).
Proof.
  intros parent' t b fsm len.
  destruct (compile_snoc parent' body) as (front & st & Hb).
  change (b = front ++ [st]) in Hb.
  assert (Hfsm : fsm = stamp p
              ([mk parent' pass] ++ t
               ++ [set_else (Z.of_nat (length b) + 1) (set_then 1 (mk parent' choice))]
               ++ front ++ [set_next (- (len - 2)) st] ++ [mk parent' pass])).
  { subst fsm len. cbn [compile node_path_of]. fold parent'. fold t. fold b.
    rewrite stamp_length, assign_length. f_equal.
    set (c := set_else _ _). clearbody b t c.
    set (n := length _).
    replace (2 - Z.of_nat n) with (- (Z.of_nat n - 2)) by lia.
    assert (Hn : (n - 2)%nat = length (mk parent' pass :: t ++ c :: front)).
    { subst n b. list_length. }
    rewrite Hn. clear Hn. clearbody n. subst b.
    replace (mk parent' pass :: t ++ c :: (front ++ [st]) ++ [mk parent' pass])
      with ((mk parent' pass :: t ++ c :: front) ++ st :: [mk parent' pass])
      by (cbn [app]; rewrite <- !app_assoc; reflexivity).
    rewrite assign_middle. cbn [app]. rewrite <- !app_assoc. reflexivity. }
  exists front, st. split; [exact Hb|]. split; [exact Hfsm|].
  assert (Hlen : length fsm = (length t + length front + 4)%nat).
  { rewrite Hfsm, stamp_length. list_length. }
  rewrite Hlen. clearbody len. clearbody fsm. subst fsm. cbn [app]. rewrite stamp_cons.
  set (hd := from_option _ _ _). set (c := set_else _ _).
  replace (hd :: t ++ c :: front ++ [set_next (- (len - 2)) st; mk parent' pass])
    with ((hd :: t ++ c :: front) ++ [set_next (- (len - 2)) st] ++ [mk parent' pass])
    by (cbn [app]; rewrite <- !app_assoc; reflexivity).
  split; [rewrite !app_assoc; apply last_snoc|]. split; [done|].
  assert (Hk : (length t + length front + 4 - 2)%nat = length (hd :: t ++ c :: front)).
  { list_length. }
  rewrite Hk.
  change ([set_next (- (len - 2)) st] ++ [mk parent' pass])
    with (set_next (- (len - 2)) st :: [mk parent' pass]).
  rewrite list_lookup_middle by done. reflexivity.
Qed.

(** ** Error inspection *)

Lemma unwind_app_skipped pre rest st :
  Forall (λ g, frame_marker g = false ∧ catch_or_m1 g < 0) pre →
  unwind (pre ++ rest) st = unwind rest (from_option catch_or_m1 st (last pre)).
Proof.
  intros Hpre. revert st.
  induction Hpre as [|g pre [Hm Hc] Hpre IH]; intros st; [done|].
  cbn [app unwind]. rewrite Hm.
  destruct (Z.leb_spec 0 (catch_or_m1 g)) as [|_]; [lia|].
  rewrite IH. destruct pre as [|g' pre]; [done|].
  rewrite last_cons_cons.
  destruct (last (g' :: pre)) eqn:E; [done|]. by apply last_None in E.
Qed.

(** The frames that [unwind] leaves are a suffix of the stack. *)
Lemma unwind_suffix stack st : (unwind stack st).1 `suffix_of` stack.
Proof.
  revert st. induction stack as [|f rest IH]; intros st; cbn [unwind]; [done|].
  destruct (frame_marker f); [done|].
  destruct (0 <=? catch_or_m1 f); cbn [fst].
  - by apply suffix_cons_r.
  - apply suffix_cons_r, IH.
Qed.

(** [unwind] stops in front of a marker frame. *)
Lemma unwind_keeps_marker pre m rest st :
  Forall (λ g, frame_marker g = false) pre →
  frame_marker m = true →
  (m :: rest) `suffix_of` (unwind (pre ++ m :: rest) st).1.
Proof.
  intros Hpre Hm. revert st.
  induction Hpre as [|g pre Hg Hpre IH]; intros st; cbn [app unwind].
  - by rewrite Hm.
  - rewrite Hg. destruct (0 <=? catch_or_m1 g); cbn [fst].
    + by apply suffix_app_r.
    + apply IH.
Qed.

Lemma inspect_error_stack p :
  defined (get "error" (params p)) = true →
  s_stack (s (inspect p)) = (unwind (s_stack (s p)) (-1)).1
  ∧ s_state (s (inspect p)) = (unwind (s_stack (s p)) (-1)).2.
Proof.
  intros Herr. unfold inspect.
  destruct (isObject (params p)) eqn:Hobj.
  - rewrite Herr. cbn. by destruct (unwind _ _).
  - destruct (params p); try discriminate; cbn in Herr; discriminate.
Qed.

Lemma inspect_is_object p : isObject (params (inspect p)) = true.
Proof.
  unfold inspect. destruct (isObject (params p)) eqn:Hobj.
  - destruct (defined (get "error" (params p))) eqn:Herr; [|done].
    cbn. by destruct (unwind _ _).
  - cbn [params with_params get]. by rewrite lookup_singleton_ne.
Qed.

Lemma inspect_error_only p :
  defined (get "error" (params p)) = true →
  params (inspect p) = VObj {[ "error" := get "error" (params p) ]}.
Proof.
  intros Herr. unfold inspect. destruct (isObject (params p)) eqn:Hobj.
  - rewrite Herr. cbn. by destruct (unwind _ _).
  - destruct (params p); try discriminate; cbn in Herr; discriminate.
Qed.

(** C3: after [inspect], [p.params] is an object, neither [null] nor an
    array; and if [p.params] carried a defined [error] field on entry, it is
    exactly [{ error }] with that error value on exit. *)
Theorem inspect_params p :
  isObject (params (inspect p)) = true
  ∧ (defined (get "error" (params p)) = true →
     params (inspect p) = VObj {[ "error" := get "error" (params p) ]}).
Proof. split; [apply inspect_is_object | apply inspect_error_only]. Qed.

Lemma inspect_params_witness :
  isObject (params (inspect failed_with_detail)) = true
  ∧ params (inspect failed_with_detail) = VObj {[ "error" := VStr "failed" ]}.
Proof.
  destruct (inspect_params failed_with_detail) as [Hobj Herr].
  split; [exact Hobj|]. rewrite Herr; reflexivity.
Defined.

(** [inspect] only removes frames from the top of the stack. *)
Lemma inspect_stack_suffix p : s_stack (s (inspect p)) `suffix_of` s_stack (s p).
Proof.
  unfold inspect.
  destruct (isObject (params p)); cbn [params with_params];
    (destruct (defined _); [|done]);
    cbn [s s_stack s_state with_state with_params];
    pose proof (unwind_suffix (s_stack (s p)) (-1)) as H;
    by destruct (unwind _ _).
Qed.

Lemma positive_catches_suffix stack stack' :
  stack' `suffix_of` stack → positive_catches stack → positive_catches stack'.
Proof. intros [pre ->] H. by apply Forall_app in H as [_ H]. Qed.

(** Every [try] state of a compiled composition carries a catch offset of
    at least 3. *)
Lemma compile_try_has_catch parent n : Forall try_has_catch (compile parent n).
Proof.
  assert (Hkeep : ∀ k f l, (∀ st, try_has_catch st → try_has_catch (f st)) →
            Forall try_has_catch l → Forall try_has_catch (assign k f l)).
  { intros k f l Hf Hl. unfold assign. apply Forall_alter; [done|]. eauto. }
  assert (Hstamp : ∀ p l, Forall try_has_catch l → Forall try_has_catch (stamp p l)).
  { intros [v|] l Hl; [|done]. by apply Hkeep. }
  assert (Hcomponents : ∀ q cs,
            Forall (λ n, ∀ q, Forall try_has_catch (compile q n)) cs →
            Forall try_has_catch (compile_components q cs)).
  { intros q cs Hcs. unfold compile_components.
    destruct Hcs as [|c cs Hc Hcs]; [by repeat constructor|].
    destruct Hcs as [|c' cs Hc' Hcs]; [apply Hc|].
    cbn [flat_map]. rewrite !Forall_app. split; [apply Hc|]. split; [apply Hc'|].
    induction Hcs as [|x l Hx Hl IHl]; [done|].
    cbn [flat_map]. rewrite Forall_app. split; [apply Hx | exact IHl]. }
  revert parent.
  induction n as [p cs IH|p nm|p cs IH|p e|p b f IHb IHf|p d cs IH|p cs IH
                  |p b h IHb IHh|p t c a IHt IHc IHa|p t b IHt IHb|p b t IHb IHt
                  |p cs IH|p cs IH|p] using node_induction;
    intros parent; cbn [compile node_path_of];
    try change (match cs with
                | [] => [mk ?q empty]
                | [c] => compile ?q c
                | c :: _ :: _ => flat_map (compile ?q) cs
                end) with (compile_components q cs);
    set (q := path_or p parent);
    try (pose proof (Hcomponents q cs IH) as Hcs);
    apply Hstamp.
  - by constructor.
  - by repeat constructor.
  - constructor; [done|]. rewrite Forall_app. split; [done|]. by repeat constructor.
  - by repeat constructor.
  - rewrite assign_head. constructor.
    + intros _. eexists. split; [reflexivity|].
      pose proof (compile_length_pos q b). list_length.
    + rewrite Forall_app. split; [apply IHb|]. constructor; [done|]. apply IHf.
  - constructor; [done|]. rewrite Forall_app. split; [done|]. by repeat constructor.
  - constructor; [done|]. rewrite Forall_app. split; [done|]. by repeat constructor.
  - apply Hkeep; [done|]. rewrite assign_head. constructor.
    + intros _. eexists. split; [reflexivity|].
      pose proof (compile_length_pos q b). list_length.
    + rewrite Forall_app. split; [apply IHb|]. constructor; [done|].
      rewrite Forall_app. split; [apply IHh | by repeat constructor].
  - apply Hkeep; [done|]. constructor; [done|].
    rewrite Forall_app. split; [apply IHt|]. constructor; [done|].
    rewrite !Forall_app. split; [apply IHc|]. split; [apply IHa | by repeat constructor].
  - apply Hkeep; [done|]. constructor; [done|].
    rewrite Forall_app. split; [apply IHt|]. constructor; [done|].
    rewrite Forall_app. split; [apply IHb | by repeat constructor].
  - apply Hkeep; [done|]. constructor; [done|].
    rewrite !Forall_app. split; [apply IHb|]. split; [apply IHt | by repeat constructor].
  - apply Hkeep; [done|]. apply Hkeep; [done|]. constructor; [done|].
    rewrite Forall_app. split; [|by repeat constructor].
    clear Hcs. induction IH as [|x l Hx Hl IHl]; [done|].
    cbn [map concat]. rewrite !Forall_app. split; [|exact IHl].
    split; [apply Hx | by repeat constructor].
  - constructor; [done|]. rewrite Forall_app. split; [done|]. by repeat constructor.
  - by repeat constructor.
Qed.

Lemma lookup_not_final fsm p node :
  0 ≤ s_state (s p) → fsm !! Z.to_nat (s_state (s p)) = Some node →
  final fsm p = false.
Proof.
  intros Hpos Hnode. apply lookup_lt_Some in Hnode. unfold final.
  destruct (Z.ltb_spec (s_state (s p)) 0); [lia|].
  destruct (Z.leb_spec (Z.of_nat (length fsm)) (s_state (s p))); [lia|done].
Qed.

(** A step at a state that is not final runs the handler of that state. *)
Lemma step1_at fsm uuid (db : store) p node :
  0 ≤ s_state (s p) → fsm !! Z.to_nat (s_state (s p)) = Some node →
  step1 fsm uuid db p
  = (db, (conduct uuid (with_state (s_state (s p) + next_or_1 node) p) node
            (s_state (s p))).1,
     (conduct uuid (with_state (s_state (s p) + next_or_1 node) p) node
        (s_state (s p))).2).
Proof.
  intros Hpos Hnode. unfold step1.
  rewrite (lookup_not_final fsm p node Hpos Hnode), Hnode.
  by destruct (conduct _ _ _ _).
Qed.

(** A handler keeps the catch indices of the stack positive, in the
    activation and in every stack that it hands over. *)
Lemma conduct_positive_catches uuid p node index :
  try_has_catch node → 0 ≤ index →
  positive_catches (s_stack (s p)) →
  positive_catches (s_stack (s (conduct uuid p node index).1))
  ∧ Forall positive_catches (outcome_stacks (conduct uuid p node index).2).
Proof.
  intros Hnode Hindex Hp.
  assert (Hmarker : positive_catches (marker_frame :: s_stack (s p))).
  { constructor; [|done]. intros c Hc. discriminate Hc. }
  assert (Hinspect : ∀ q, positive_catches (s_stack (s q)) →
                          positive_catches (s_stack (s (inspect q)))).
  { intros q. apply positive_catches_suffix, inspect_stack_suffix. }
  assert (Hfork : ∀ A (array : list A) it,
            positive_catches (s_stack (s (fork uuid p node index array it).1))
            ∧ Forall positive_catches
                (outcome_stacks (fork uuid p node index array it).2)).
  { intros A array it. unfold fork.
    destruct (return_ node); [|by split].
    destruct (Nat.eqb _ _); [by split|].
    destruct (redis_misconfigured _) as [[]|]; cbn; try by split.
    split; [done|]. rewrite Forall_fmap. apply Forall_forall.
    intros [ps c] Hin. apply list_elem_of_lookup in Hin as [i Hi].
    rewrite list_lookup_imap in Hi.
    destruct (array !! i); [|done]. cbn in Hi. destruct (it _ _).
    injection Hi as <- <-. exact Hmarker. }
  unfold conduct. destruct (type node) eqn:Htype.
  - (* pass *) by split.
  - (* action *) cbn. split; [done|]. by repeat constructor.
  - (* function *) by split.
  - (* async *)
    destruct (nullish _); [by split|]. destruct (return_ node); [|by split].
    cbn. split; [done|]. by repeat constructor.
  - (* stop *) by split.
  - (* empty *) split; [by apply Hinspect | done].
  - (* choice *)
    destruct (nullish _); [by split|].
    by destruct (if truthy _ then _ else _).
  - (* try *)
    destruct (Hnode Htype) as (c & Hc & Hc3). rewrite Hc. cbn. split; [|done].
    constructor; [|done]. intros c' Hc'. cbn in Hc'. injection Hc' as <-. lia.
  - (* let *)
    destruct (let_decl node) as [[d|]|]; cbn; split; try done;
      (constructor; [|done]); intros c Hc; discriminate Hc.
  - (* exit *)
    destruct (s_stack (s p)) as [|fr rest] eqn:Hstack; cbn; (split; [|done]).
    + by rewrite Hstack.
    + by apply Forall_inv_tail in Hp.
  - (* parallel *) destruct (tasks node); [apply Hfork | by split].
  - (* map *)
    destruct (nullish _); [by split|].
    destruct (map_items _); [apply Hfork | by split].
  - (* dynamic *)
    destruct (nullish _); [by split|].
    destruct (get "type" (params p)), (get "name" (params p));
      try (split; [by apply Hinspect | done]).
    destruct (_ && _); cbn; [|split; [by apply Hinspect | done]].
    split; [done|]. by repeat constructor.
Qed.

(** One call of [step] on a compiled composition keeps the catch indices
    positive: the stacks of the conductor, which start from the empty stack,
    all have positive catch indices. *)
Lemma step1_positive_catches parent composition uuid (db : store) p :
  positive_catches (s_stack (s p)) →
  positive_catches (s_stack (s (step1 (compile parent composition) uuid db p).1.2))
  ∧ Forall positive_catches
      (outcome_stacks (step1 (compile parent composition) uuid db p).2).
Proof.
  intros Hp. set (fsm := compile parent composition).
  destruct (final fsm p) eqn:Hfinal.
  - unfold step1. rewrite Hfinal. destruct (s_join (s p)) as [j|]; [|by split].
    destruct (lpushx _ _ _) as [db1 len]. destruct (Nat.ltb _ _); [|by split].
    by destruct (rename _ _ _).
  - assert (Hpos : 0 ≤ s_state (s p)).
    { unfold final in Hfinal. apply orb_false_iff in Hfinal as [H _].
      by apply Z.ltb_ge in H. }
    destruct (fsm !! Z.to_nat (s_state (s p))) as [node|] eqn:Hnode.
    + rewrite (step1_at fsm uuid db p node Hpos Hnode). cbn [fst snd].
      apply conduct_positive_catches; [|done|done].
      pose proof (compile_try_has_catch parent composition) as Hall.
      rewrite Forall_forall in Hall. apply Hall.
      apply list_elem_of_lookup. eauto.
    + unfold step1. rewrite Hfinal, Hnode. by split.
Qed.

(** The step loop keeps the catch indices positive. *)
Lemma step_positive_catches fuel parent composition uuid (db : store) p :
  positive_catches (s_stack (s p)) →
  positive_catches
    (s_stack (s (step fuel (compile parent composition) uuid db p).1.2))
  ∧ Forall positive_catches
      (outcome_stacks (step fuel (compile parent composition) uuid db p).2).
Proof.
  revert db p. induction fuel as [|fuel IH]; intros db p Hp.
  - cbn. by split.
  - cbn [step].
    pose proof (step1_positive_catches parent composition uuid db p Hp) as [H1 H2].
    destruct (step1 _ _ _ _) as [[db1 p1] o]. cbn [fst snd] in H1, H2.
    destruct o; try (by split). by apply IH.
Qed.

(** C4: when [p.params] carries a defined [error], [inspect] pops frames
    top-down and stops at the first frame that carries a catch index, which
    becomes [p.s.state]; it never pops a marker frame or a frame below one;
    and if no frame above the nearest marker carries a catch (or the stack
    empties), [p.s.state] ends at -1.  The stack is one that the conductor
    builds: its catch indices are positive. *)
Theorem inspect_unwinds p :
  defined (get "error" (params p)) = true →
  positive_catches (s_stack (s p)) →
  (∀ pre f rest c,
      s_stack (s p) = pre ++ f :: rest →
      Forall (λ g, frame_marker g = false ∧ frame_catch g = None) pre →
      frame_marker f = false → frame_catch f = Some c →
      s_stack (s (inspect p)) = rest ∧ s_state (s (inspect p)) = c)
  ∧ (∀ pre m rest,
      s_stack (s p) = pre ++ m :: rest →
      Forall (λ g, frame_marker g = false) pre →
      frame_marker m = true →
      (m :: rest) `suffix_of` s_stack (s (inspect p)))
  ∧ (∀ pre rest,
      s_stack (s p) = pre ++ rest →
      Forall (λ g, frame_marker g = false ∧ frame_catch g = None) pre →
      (rest = [] ∨ ∃ m rest', rest = m :: rest' ∧ frame_marker m = true) →
      s_stack (s (inspect p)) = rest ∧ s_state (s (inspect p)) = -1).
Proof.
  intros Herr Hpositive. destruct (inspect_error_stack p Herr) as [-> ->].
  assert (Hskip : ∀ pre,
            Forall (λ g, frame_marker g = false ∧ frame_catch g = None) pre →
            Forall (λ g, frame_marker g = false ∧ catch_or_m1 g < 0) pre).
  { intros pre H. eapply Forall_impl; [exact H|]. intros g [Hg Hg']. split; [done|].
    unfold catch_or_m1. rewrite Hg'. lia. }
  split; [|split].
  - intros pre f rest c Hstack Hpre Hm Hc.
    assert (Hpos : 0 < c).
    { rewrite Hstack in Hpositive. apply Forall_app in Hpositive as [_ H].
      apply Forall_inv in H. by apply H. }
    rewrite Hstack.
    assert (Hf : ∀ st, unwind (f :: rest) st = (rest, c)).
    { intros st. cbn [unwind]. rewrite Hm. unfold catch_or_m1. rewrite Hc.
      destruct (Z.eqb_spec c 0); [lia|].
      destruct (Z.leb_spec 0 c); [done|lia]. }
    by rewrite unwind_app_skipped, Hf by (by apply Hskip).
  - intros pre m rest -> Hpre Hm. by apply unwind_keeps_marker.
  - intros pre rest -> Hpre Hrest.
    assert (Hr : ∀ st, unwind rest st = (rest, st)).
    { intros st. destruct Hrest as [->|(m & rest' & -> & Hm)]; [done|].
      cbn [unwind]. by rewrite Hm. }
    rewrite unwind_app_skipped, Hr by (by apply Hskip).
    split; [done|]. cbn [snd].
    destruct (last pre) as [g'|] eqn:Hlast; [|done].
    apply last_Some_elem_of in Hlast.
    rewrite Forall_forall in Hpre. destruct (Hpre g' Hlast) as [_ Hg'].
    cbn. unfold catch_or_m1. by rewrite Hg'.
Qed.

Lemma inspect_unwinds_witness :
  s_stack (s (inspect failed_in_branch)) = [marker_frame; catch_frame (Some 3)]
  ∧ s_state (s (inspect failed_in_branch)) = 9.
Proof.
  assert (Hpositive : positive_catches (s_stack (s failed_in_branch))).
  { repeat constructor; intros c H; try discriminate H;
      injection H as <-; lia. }
  apply (proj1 (inspect_unwinds failed_in_branch eq_refl Hpositive)
           [let_frame None] (catch_frame (Some 9))
           [marker_frame; catch_frame (Some 3)] 9).
  - reflexivity.
  - repeat constructor.
  - reflexivity.
  - reflexivity.
Defined.

(** ** The lexical view *)

(** A skip counter of [n] hides the first [n] frames that the view would
    otherwise hold. *)
Lemma view_from_drop n stack : view_from n stack = drop n (view stack).
Proof.
  unfold view. revert n.
  induction stack as [|fr rest IH]; intros n; cbn [view_from].
  - by rewrite drop_nil.
  - destruct (frame_let fr) as [[o|]|].
    + destruct n as [|n]; cbn [drop]; [reflexivity | apply IH].
    + rewrite (IH (S n)), (IH 1%nat), drop_drop. f_equal; lia.
    + apply IH.
Qed.

(** The view keeps frames of the stack, in the order of the stack. *)
Lemma view_from_sublist n stack : view_from n stack `sublist_of` stack.
Proof.
  revert n. induction stack as [|fr rest IH]; intros n; cbn [view_from]; [done|].
  destruct (frame_let fr) as [[o|]|].
  - destruct n; [by apply sublist_skip | by apply sublist_cons].
  - by apply sublist_cons.
  - by apply sublist_cons.
Qed.

Lemma env_cons fr v :
  env (fr :: v)
  = match frame_let fr with Some (Some o) => o ∪ env v | _ => env v end.
Proof. reflexivity. Qed.

Lemma env_app_unbound pre v x :
  Forall (λ g, ∀ o, frame_let g = Some (Some o) → o !! x = None) pre →
  env (pre ++ v) !! x = env v !! x.
Proof.
  induction 1 as [|g pre Hg Hpre IH]; [done|].
  cbn [app]. rewrite env_cons.
  destruct (frame_let g) as [[o|]|]; [|done..].
  rewrite lookup_union_r; [done|]. by apply Hg.
Qed.

Lemma view_from_transparent n mid stack :
  Forall (λ g, frame_let g = None) mid →
  view_from n (mid ++ stack) = view_from n stack.
Proof.
  induction 1 as [|g mid Hg Hmid IH]; [done|].
  cbn [app view_from]. by rewrite Hg.
Qed.

(** C8: in the view that [run] builds, a mask frame ([let: null]) on top of
    a stack removes exactly the innermost [let] frame of the view of that
    stack (one mask hides one [let], through the skip counter): the [let]
    frame next beneath it when no other mask lies in between.  A [let] frame
    met with the counter at zero enters the view, frames are kept in stack
    order, and when several frames of the view bind a name the one nearest
    the top of the stack supplies its value in the environment. *)
Theorem run_view_env :
  (∀ fr stack, frame_let fr = Some None →
     view (fr :: stack) = tail (view stack))
  ∧ (∀ fr mid hidden o stack,
       frame_let fr = Some None →
       Forall (λ g, frame_let g = None) mid →
       frame_let hidden = Some (Some o) →
       view (fr :: mid ++ hidden :: stack) = view stack)
  ∧ (∀ fr o stack, frame_let fr = Some (Some o) →
     view (fr :: stack) = fr :: view stack)
  ∧ (∀ fr stack, frame_let fr = None → view (fr :: stack) = view stack)
  ∧ (∀ stack, view stack `sublist_of` stack)
  ∧ (∀ stack pre fr o rest x v,
       view stack = pre ++ fr :: rest →
       Forall (λ g, ∀ o', frame_let g = Some (Some o') → o' !! x = None) pre →
       frame_let fr = Some (Some o) → o !! x = Some v →
       env (view stack) !! x = Some v).
Proof.
  split_and!.
  - intros fr stack Hfr. unfold view at 1. cbn [view_from]. rewrite Hfr.
    rewrite view_from_drop. by destruct (view stack).
  - intros fr mid hidden o stack Hfr Hmid Hhidden.
    unfold view. cbn [view_from]. rewrite Hfr.
    rewrite view_from_transparent by done. cbn [view_from]. by rewrite Hhidden.
  - intros fr o stack Hfr. unfold view. cbn [view_from]. by rewrite Hfr.
  - intros fr stack Hfr. unfold view. cbn [view_from]. by rewrite Hfr.
  - intros stack. apply view_from_sublist.
  - intros stack pre fr o rest x v -> Hpre Hfr Hx.
    rewrite env_app_unbound by done. rewrite env_cons, Hfr.
    by apply lookup_union_Some_l.
Qed.

Lemma run_view_env_witness :
  view (let_frame None :: drop 2 masked_stack) = tail (view (drop 2 masked_stack))
  ∧ env (view masked_stack) !! "x" = Some (VNum 1).
Proof.
  destruct run_view_env as (Hmask & _ & _ & _ & _ & Henv). split.
  - apply Hmask. reflexivity.
  - apply (Henv masked_stack [] (let_frame (Some {[ "x" := VNum 1 ]}))
             {[ "x" := VNum 1 ]}
             [let_frame (Some {[ "x" := VNum 3; "y" := VNum 4 ]})] "x" (VNum 1)).
    + reflexivity.
    + constructor.
    + reflexivity.
    + reflexivity.
Defined.

(** ** JSON data *)

(** Induction on JSON data, with the hypothesis for every element of an
    array and every property of an object. *)
Lemma is_json_induction (P : value → Prop) :
  P VNull → (∀ b, P (VBool b)) → (∀ n, P (VNum n)) → (∀ str, P (VStr str)) →
  (∀ l, Forall P l → P (VArr l)) →
  (∀ m, map_Forall (λ _, P) m → P (VObj m)) →
  ∀ v, is_json v → P v.
Proof.
  intros Hnull Hbool Hnum Hstr Harr Hobj.
  fix IH 2. intros v [ |b|n|str|l Hl|m Hm].
  - exact Hnull.
  - apply Hbool.
  - apply Hnum.
  - apply Hstr.
  - apply Harr. induction Hl as [|x l Hx Hl IHl]; constructor.
    + apply IH, Hx.
    + exact IHl.
  - apply Hobj. intros k x Hk. apply IH, (Hm k x Hk).
Qed.

(** A JSON round trip gives JSON data back unchanged. *)
Lemma to_json_is_json v : is_json v → to_json v = Some v.
Proof.
  induction 1 as [ | | | |l IH|m IH] using is_json_induction; try reflexivity.
  - cbn [to_json]. do 2 f_equal.
    induction IH as [|x l Hx Hl IHl]; [done|].
    cbn [map]. by rewrite Hx, IHl.
  - cbn [to_json]. do 2 f_equal. apply map_eq. intros k.
    rewrite lookup_omap. destruct (m !! k) as [x|] eqn:Hk; [|done].
    cbn. apply (IH k x Hk).
Qed.

Lemma is_json_defined v : is_json v → defined v = true ∧ typeof v ≠ "function".
Proof. by destruct 1. Qed.

(** ** Collect *)

Lemma array_set_length i v a :
  length (array_set i v a) = (length a `max` S i)%nat.
Proof.
  unfold array_set. case_decide.
  - rewrite length_insert. lia.
  - rewrite !length_app, length_replicate. cbn [length]. lia.
Qed.

Lemma array_set_lookup i v a k :
  array_set i v a !! k
  = if decide (k = i) then Some v
    else if decide (k < length a)%nat then a !! k
    else if decide (k < i)%nat then Some VUndefined else None.
Proof.
  unfold array_set. destruct (decide (i < length a)%nat) as [Hi|Hi].
  - destruct (decide (k = i)) as [->|Hk].
    + by rewrite list_lookup_insert_eq.
    + rewrite list_lookup_insert_ne by done.
      repeat case_decide; try done; try lia.
      all: apply lookup_ge_None; lia.
  - destruct (decide (k < length a)%nat) as [Hk|Hk].
    + rewrite lookup_app_l by done. case_decide; [lia|done].
    + rewrite lookup_app_r by lia.
      destruct (decide (k < i)%nat) as [Hki|Hki].
      * rewrite lookup_app_l by (rewrite length_replicate; lia).
        rewrite lookup_replicate_2 by lia. case_decide; [lia|done].
      * rewrite lookup_app_r by (rewrite length_replicate; lia).
        rewrite length_replicate.
        destruct (decide (k = i)) as [->|Hne].
        -- by replace (i - length a - (i - length a))%nat with 0%nat by lia.
        -- apply lookup_ge_None. cbn [length]. lia.
Qed.

(** Writes at different positions commute. *)
Lemma array_set_comm i j v w a :
  i ≠ j → array_set i v (array_set j w a) = array_set j w (array_set i v a).
Proof.
  intros Hij. apply list_eq. intros k.
  rewrite !array_set_lookup, !array_set_length.
  repeat case_decide; try done; try lia.
Qed.

Lemma array_writes_cons r rs a :
  array_writes (r :: rs) a = array_writes rs (array_set r.1 r.2 a).
Proof. reflexivity. Qed.

Lemma array_writes_set_comm i v rs a :
  i ∉ rs.*1 →
  array_writes rs (array_set i v a) = array_set i v (array_writes rs a).
Proof.
  revert a. induction rs as [|[j w] rs IH]; intros a Hi; [done|].
  rewrite !array_writes_cons. cbn [fst snd].
  rewrite fmap_cons, not_elem_of_cons in Hi. destruct Hi as [Hij Hi].
  rewrite <- IH by done. f_equal. by apply array_set_comm.
Qed.

Lemma array_writes_permutation rs rs' a :
  NoDup rs.*1 → rs ≡ₚ rs' → array_writes rs a = array_writes rs' a.
Proof.
  intros Hnd Hperm. revert a Hnd.
  induction Hperm as [|r rs rs' Hperm IH|r1 r2 rs|rs1 rs2 rs3 H12 IH12 H23 IH23];
    intros a Hnd.
  - done.
  - rewrite !array_writes_cons. apply IH.
    rewrite fmap_cons in Hnd. by apply NoDup_cons_1_2 in Hnd.
  - rewrite !array_writes_cons. f_equal. apply array_set_comm.
    rewrite !fmap_cons in Hnd. apply NoDup_cons_1_1 in Hnd.
    rewrite not_elem_of_cons in Hnd. by destruct Hnd.
  - rewrite IH12 by done. apply IH23. by rewrite <- H12.
Qed.

Lemma array_writes_lookup rs a i v :
  NoDup rs.*1 → (i, v) ∈ rs → array_writes rs a !! i = Some v.
Proof.
  revert a. induction rs as [|[j w] rs IH]; intros a Hnd Hin.
  - by apply elem_of_nil in Hin.
  - rewrite fmap_cons in Hnd.
    pose proof (NoDup_cons_1_1 _ _ Hnd) as Hj. apply NoDup_cons_1_2 in Hnd.
    rewrite array_writes_cons. cbn [fst snd].
    apply elem_of_cons in Hin as [Heq|Hin].
    + injection Heq as -> ->.
      rewrite array_writes_set_comm by done.
      rewrite array_set_lookup. by case_decide.
    + by apply IH.
Qed.

Lemma result_record_position i v :
  get "position" (result_record i v) = VNum (Z.of_nat i).
Proof. unfold result_record, get. by rewrite lookup_insert_eq. Qed.

Lemma result_record_params i v : get "params" (result_record i v) = v.
Proof.
  unfold result_record, get.
  rewrite lookup_insert_ne by done. by rewrite lookup_singleton_eq.
Qed.

(** What [write_results] does on records with an index position when
    [p.params.value] is an array. *)
Lemma write_results_array rs p m a :
  params p = VObj m → m !! "value" = Some (VArr a) →
  write_results ((λ r, result_record r.1 r.2) <$> rs) p
  = Some (with_params (VObj (<["value" := VArr (array_writes rs a)]> m)) p).
Proof.
  unfold write_results. revert p m a.
  induction rs as [|[i v] rs IH]; intros p m a Hp Hm.
  - cbn. destruct p as [c ps]. cbn in *. subst ps.
    by rewrite insert_id.
  - rewrite fmap_cons. cbn [foldl mbind option_bind fst snd].
    assert (Hw : write_result (result_record i v) p
                 = Some (with_params (VObj (<["value" := VArr (array_set i v a)]> m)) p)).
    { unfold write_result.
      rewrite result_record_position, result_record_params, Hp.
      cbn [get]. rewrite Hm. cbn [default].
      destruct (Z.leb_spec 0 (Z.of_nat i)); [|lia].
      by rewrite Nat2Z.id. }
    rewrite Hw.
    rewrite (IH _ (<["value" := VArr (array_set i v a)]> m) (array_set i v a));
      [|done|by rewrite lookup_insert_eq].
    rewrite insert_insert_eq. by destruct p.
Qed.

(** The records of the [n] branches of a fork, whatever their order in the
    list, fill an empty array with the results in branch order. *)
Lemma array_writes_branches_from pre vs :
  array_writes (imap (λ i v, (length pre + i, v)%nat) vs) pre = pre ++ vs.
Proof.
  revert pre. induction vs as [|v vs IH]; intros pre.
  - by rewrite app_nil_r.
  - rewrite imap_cons, array_writes_cons. cbn [fst snd].
    assert (Hset : array_set (length pre + 0) v pre = pre ++ [v]).
    { unfold array_set. case_decide; [lia|].
      by replace (length pre + 0 - length pre)%nat with 0%nat by lia. }
    rewrite Hset.
    rewrite (imap_ext _ (λ i x, (length (pre ++ [v]) + i, x)%nat)).
    + rewrite IH. by rewrite <- app_assoc.
    + intros i x _. cbn. rewrite length_app. cbn [length]. f_equal. lia.
Qed.

Lemma imap_positions (vs : list value) :
  (imap (λ i v, (i, v)) vs).*1 = seq 0 (length vs).
Proof.
  apply list_eq. intros k.
  rewrite list_lookup_fmap, list_lookup_imap.
  destruct (vs !! k) as [v|] eqn:Hk; cbn.
  - symmetry. apply lookup_seq. split; [done|].
    by apply lookup_lt_Some in Hk.
  - symmetry. apply lookup_seq_ge. by apply lookup_ge_None in Hk.
Qed.

Lemma brpop_snoc key l e (db : store) :
  db !! key = Some (l ++ [e]) →
  ∃ db', brpop key db = Some (e, db') ∧ lrange key db' = l
         ∧ ∀ k, k ≠ key → db' !! k = db !! k.
Proof.
  intros Hkey. unfold brpop. rewrite Hkey, last_snoc.
  rewrite length_app. cbn [length].
  replace (length l + 1 - 1)%nat with (length l) by lia.
  rewrite take_app_length. unfold lrange. destruct l as [|x l].
  - eexists. split; [done|]. split.
    + by rewrite lookup_delete_eq.
    + intros k Hk. by rewrite lookup_delete_ne.
  - eexists. split; [done|]. split.
    + by rewrite lookup_insert_eq.
    + intros k Hk. by rewrite lookup_insert_ne.
Qed.

(** [fork] gives the branch of every element of the array its index as
    position, the barrier of the fork and the length of the array as
    count. *)
Lemma fork_joins {A} uuid p node index (array : list A) it :
  spawned_joins (fork uuid p node index array it).2 = []
  ∨ spawned_joins (fork uuid p node index array it).2
    = (λ i, Some {| barrierId := uuid; position := i; count := length array |})
      <$> seq 0 (length array).
Proof.
  unfold fork. destruct (return_ node); [|by left].
  destruct (Nat.eqb _ _); [by left|].
  destruct (redis_misconfigured _) as [[]|]; [by left| |by left].
  right. cbn [snd spawned_joins]. apply list_eq. intros k.
  rewrite !list_lookup_fmap, list_lookup_imap.
  destruct (array !! k) as [x|] eqn:Hk; cbn.
  - rewrite (lookup_seq_lt _ _ _ (lookup_lt_Some _ _ _ Hk)). cbn.
    by destruct (it _ _).
  - by rewrite (lookup_seq_ge _ _ _ (proj1 (lookup_ge_None _ _) Hk)).
Qed.

(** The branches that a handler spawns have the positions 0 to n-1, each
    once, under one barrier and with the count n. *)
Lemma conduct_spawn_positions uuid p node index :
  ∃ n, spawned_joins (conduct uuid p node index).2
       = (λ i, Some {| barrierId := uuid; position := i; count := n |}) <$> seq 0 n.
Proof.
  assert (Hnone : ∀ o, spawned_joins o = [] →
            ∃ n, spawned_joins o
                 = (λ i, Some {| barrierId := uuid; position := i; count := n |})
                   <$> seq 0 n).
  { intros o Ho. exists 0%nat. by rewrite Ho. }
  assert (Hfork : ∀ A (array : list A) it,
            ∃ n, spawned_joins (fork uuid p node index array it).2
                 = (λ i, Some {| barrierId := uuid; position := i; count := n |})
                   <$> seq 0 n).
  { intros A array it. destruct (fork_joins uuid p node index array it) as [H|H].
    - by apply Hnone.
    - by exists (length array). }
  unfold conduct. destruct (type node); try (by apply Hnone).
  - destruct (nullish _); [by apply Hnone|]. destruct (return_ node); by apply Hnone.
  - destruct (nullish _); [by apply Hnone|].
    destruct (if truthy _ then _ else _); by apply Hnone.
  - destruct (let_decl node) as [[d|]|]; by apply Hnone.
  - destruct (s_stack (s p)); by apply Hnone.
  - destruct (tasks node); [apply Hfork | by apply Hnone].
  - destruct (nullish _); [by apply Hnone|].
    destruct (map_items _); [apply Hfork | by apply Hnone].
  - destruct (nullish _); [by apply Hnone|].
    destruct (get "type" (params p)), (get "name" (params p)); try (by apply Hnone).
    destruct (_ && _); by apply Hnone.
Qed.

(** [inspect] leaves [p.s.join] alone. *)
Lemma inspect_join p : s_join (s (inspect p)) = s_join (s p).
Proof.
  unfold inspect. destruct (isObject (params p)); cbn [params with_params];
    (destruct (defined _); [|done]);
    cbn [s s_stack s_state s_join with_state with_stack with_params];
    by destruct (unwind _ _).
Qed.

(** A handler keeps [p.s.join]: a branch carries its position from its
    first activation to its last, through every continuation, and the child
    of [async] carries none. *)
Lemma conduct_keeps_join uuid p node index :
  s_join (s (conduct uuid p node index).1) = s_join (s p)
  ∧ continued_joins p (conduct uuid p node index).2.
Proof.
  assert (Hfork : ∀ A (array : list A) it,
            s_join (s (fork uuid p node index array it).1) = s_join (s p)
            ∧ continued_joins p (fork uuid p node index array it).2).
  { intros A array it. unfold fork. destruct (return_ node); [|done].
    destruct (Nat.eqb _ _); [done|].
    by destruct (redis_misconfigured _) as [[]|]. }
  unfold conduct. destruct (type node); try done.
  - destruct (nullish _); [done|]. by destruct (return_ node).
  - split; [|done]. cbn [fst]. apply inspect_join.
  - destruct (nullish _); [done|]. by destruct (if truthy _ then _ else _).
  - by destruct (let_decl node) as [[d|]|].
  - by destruct (s_stack (s p)).
  - destruct (tasks node); [apply Hfork | done].
  - destruct (nullish _); [done|]. destruct (map_items _); [apply Hfork | done].
  - destruct (nullish _); [done|].
    destruct (get "type" (params p)), (get "name" (params p));
      try (split; [|done]; cbn [fst]; by rewrite inspect_join).
    destruct (_ && _); [done|]. split; [|done]. cbn [fst]. by rewrite inspect_join.
Qed.

Lemma is_json_result_record i v : is_json v → is_json (result_record i v).
Proof.
  intros Hv. apply json_obj. unfold result_record.
  apply map_Forall_insert_2; [apply json_num|].
  by apply map_Forall_singleton.
Qed.

(** The store after a branch that is not the last to end: its record is
    pushed on the live key. *)
Lemma step1_branch_push fsm uuid (db : store) b id i n l :
  final fsm b = true →
  s_join (s b) = Some {| barrierId := id; position := i; count := n |} →
  is_json (params b) →
  db !! live id = Some l → (length l < n)%nat →
  (step1 fsm uuid db b).1.1 = <[live id := result_record i (params b) :: l]> db.
Proof.
  intros Hfinal Hjoin Hjson Hlive Hlen. unfold step1. rewrite Hfinal, Hjoin.
  cbn [barrierId position count]. unfold lpushx. rewrite Hlive.
  rewrite (to_json_is_json _ (is_json_result_record i _ Hjson)). cbn [default].
  by destruct (Nat.ltb_spec n (S (length l))); [lia|].
Qed.

(** The store after the branch that is the last to end: the live key is
    renamed to the done key. *)
Lemma step1_branch_rename fsm uuid (db : store) b id i n l :
  final fsm b = true →
  s_join (s b) = Some {| barrierId := id; position := i; count := n |} →
  is_json (params b) →
  db !! live id = Some l → length l = n →
  (step1 fsm uuid db b).1.1 !! done id = Some (result_record i (params b) :: l).
Proof.
  intros Hfinal Hjoin Hjson Hlive Hlen. unfold step1. rewrite Hfinal, Hjoin.
  cbn [barrierId position count]. unfold lpushx. rewrite Hlive.
  rewrite (to_json_is_json _ (is_json_result_record i _ Hjson)). cbn [default].
  destruct (Nat.ltb_spec n (S (length l))); [|lia].
  unfold rename. rewrite lookup_insert_eq. cbn [fst]. by rewrite lookup_insert_eq.
Qed.

(** The live key while the branches of a fork end: the records of the
    branches that ended, the last one first, above what the key held. *)
Lemma ends_live fsm uuid (db : store) id n bs l :
  Forall (λ b, final fsm b = true ∧ is_json (params b)
               ∧ ∃ i, s_join (s b)
                      = Some {| barrierId := id; position := i; count := n |}) bs →
  db !! live id = Some l → (length l + length bs ≤ n)%nat →
  ends fsm uuid db bs !! live id
  = Some (branch_records (reverse (record_of <$> bs)) ++ l).
Proof.
  intros Hbs. revert db l. unfold ends.
  induction Hbs as [|b bs (Hfinal & Hjson & i & Hjoin) Hbs IH]; intros db l Hlive Hlen.
  - done.
  - cbn [length] in Hlen. cbn [foldl].
    rewrite (step1_branch_push fsm uuid db b id i n l) by (done || lia).
    rewrite (IH _ (result_record i (params b) :: l)).
    + rewrite fmap_cons, reverse_cons. unfold branch_records.
      rewrite fmap_app, <- app_assoc. do 2 f_equal.
      unfold record_of. by rewrite Hjoin.
    + by rewrite lookup_insert_eq.
    + cbn [length]. lia.
Qed.

(** The done key once all the branches of a fork have ended: the record of
    every branch, the last one to end first, above the sentinel.  The
    barrier is a fresh identifier: the store has no live key for it before
    the fork. *)
Lemma ends_done fsm uuid (db : store) id n bs :
  Forall (λ b, final fsm b = true ∧ is_json (params b)
               ∧ ∃ i, s_join (s b)
                      = Some {| barrierId := id; position := i; count := n |}) bs →
  db !! live id = None → length bs = n → bs ≠ [] →
  ends fsm uuid (fork_store id db) bs !! done id
  = Some (branch_records (reverse (record_of <$> bs)) ++ [VNum 42]).
Proof.
  intros Hbs Hfresh Hlen Hne.
  destruct (exists_last Hne) as (bs0 & b & ->). clear Hne.
  apply Forall_app in Hbs as [Hbs0 Hb].
  apply Forall_inv in Hb as (Hfinal & Hjson & i & Hjoin).
  rewrite length_app in Hlen. cbn [length] in Hlen.
  unfold ends. rewrite foldl_app. cbn [foldl].
  fold (ends fsm uuid (fork_store id db) bs0).
  assert (Hlive : ends fsm uuid (fork_store id db) bs0 !! live id
                  = Some (branch_records (reverse (record_of <$> bs0)) ++ [VNum 42])).
  { apply (ends_live fsm uuid _ id n); [done| |].
    - unfold fork_store, lpush. by rewrite lookup_insert_eq, Hfresh.
    - cbn [length]. lia. }
  rewrite (step1_branch_rename fsm uuid _ b id i n _ Hfinal Hjoin Hjson Hlive).
  - rewrite fmap_app, reverse_app. cbn [fmap list_fmap reverse rev_append app].
    unfold branch_records at 2. rewrite fmap_cons. cbn [app].
    unfold record_of at 2. by rewrite Hjoin.
  - rewrite length_app. unfold branch_records.
    rewrite length_fmap, length_reverse, length_fmap. cbn [length]. lia.
Qed.

(** Records whose positions are 0 to n-1, each once, and whose params are
    the results [vs] by position, are the records of [vs] in some order. *)
Lemma records_by_position (rs : list (nat * value)) vs :
  rs.*1 ≡ₚ seq 0 (length vs) →
  Forall (λ r, vs !! r.1 = Some r.2) rs →
  rs ≡ₚ imap (λ i v, (i, v)) vs.
Proof.
  intros Hperm Hrs.
  assert (H1 : rs = (λ i, (i, default VUndefined (vs !! i))) <$> rs.*1).
  { clear Hperm. induction Hrs as [|[i v] rs Hr Hrs IH]; [done|].
    rewrite !fmap_cons. cbn [fst snd] in *. by rewrite Hr, <- IH. }
  assert (H2 : imap (λ i v, (i, v)) vs
               = (λ i, (i, default VUndefined (vs !! i))) <$> seq 0 (length vs)).
  { apply list_eq. intros k. rewrite list_lookup_imap, list_lookup_fmap.
    destruct (vs !! k) as [v|] eqn:Hk; cbn.
    - rewrite (lookup_seq_lt _ _ _ (lookup_lt_Some _ _ _ Hk)). cbn. by rewrite Hk.
    - by rewrite (lookup_seq_ge _ _ _ (proj1 (lookup_ge_None _ _) Hk)). }
  rewrite H1, H2. by apply fmap_Permutation.
Qed.

(** From the fork to the collect: in a store where [fork] has pushed the
    sentinel of a fresh barrier, let the n branches end in any order, the
    branch at position i with the params [vs !! i].  Then [collect] finds
    the done key and fills [p.params.value] with [vs], the results in the
    order of the branches, whatever the order in which they ended. *)
Lemma fork_join_collect fsm uuid (db : store) id vs bs p m :
  db !! live id = None →
  Forall (λ b, final fsm b = true ∧ is_json (params b)
               ∧ ∃ i, s_join (s b)
                      = Some {| barrierId := id; position := i; count := length vs |}) bs →
  Forall (λ b, vs !! (record_of b).1 = Some (params b)) bs →
  (record_of <$> bs).*1 ≡ₚ seq 0 (length vs) → vs ≠ [] →
  params p = VObj m → m !! "value" = Some (VArr []) →
  NoDup (record_of <$> bs).*1
  ∧ lrange (done id) (ends fsm uuid (fork_store id db) bs)
    = branch_records (reverse (record_of <$> bs)) ++ [VNum 42]
  ∧ (collect1 (ends fsm uuid (fork_store id db) bs) p id).1.2
    = inspect (with_params (VObj (<["value" := VArr vs]> m)) p)
  ∧ (collect1 (ends fsm uuid (fork_store id db) bs) p id).2 = Proceed.
Proof.
  intros Hfresh Hbs Hvs Hperm Hne Hp Hm.
  assert (Hnd : NoDup (record_of <$> bs).*1).
  { rewrite Hperm. apply NoDup_seq. }
  assert (Hlen : length bs = length vs).
  { apply Permutation_length in Hperm.
    by rewrite !length_fmap, length_seq in Hperm. }
  assert (Hbs' : bs ≠ []).
  { intros ->. destruct vs; [done|discriminate Hlen]. }
  pose proof (ends_done fsm uuid db id (length vs) bs Hbs Hfresh Hlen Hbs') as Hdone.
  split; [exact Hnd|]. split; [unfold lrange; by rewrite Hdone|].
  destruct (brpop_snoc _ _ _ _ Hdone) as (db1 & Hpop & Hrange & _).
  unfold collect1. rewrite Hpop, Hrange.
  unfold branch_records.
  rewrite (write_results_array _ p m [] Hp Hm).
  assert (Hrecords : reverse (record_of <$> bs) ≡ₚ imap (λ i v, (i, v)) vs).
  { rewrite reverse_Permutation. apply records_by_position; [done|].
    by rewrite Forall_fmap. }
  assert (Hnd' : NoDup (reverse (record_of <$> bs)).*1).
  { by rewrite reverse_Permutation. }
  assert (Hwrites : array_writes (imap (λ i v, (i, v)) vs) [] = vs).
  { apply (array_writes_branches_from [] vs). }
  by rewrite (array_writes_permutation _ _ [] Hnd' Hrecords), Hwrites.
Qed.


(** Two branches that end in the reverse of their order: the array holds
    their results in the order of the branches. *)
Example two_branches_end_in_reverse_order :
  (collect1
     (ends [] "u" (fork_store "b" ∅)
        [branch_ended 1 (VObj {[ "n" := VNum 1 ]});
         branch_ended 0 (VObj {[ "n" := VNum 0 ]})])
     forked "b").1.2
  = inspect (with_params
               (VObj {[ "value" := VArr [VObj {[ "n" := VNum 0 ]};
                                         VObj {[ "n" := VNum 1 ]}] ]})
               forked).
Proof.
  destruct (fork_join_collect [] "u" ∅ "b"
              [VObj {[ "n" := VNum 0 ]}; VObj {[ "n" := VNum 1 ]}]
              [branch_ended 1 (VObj {[ "n" := VNum 1 ]});
               branch_ended 0 (VObj {[ "n" := VNum 0 ]})]
              forked {[ "value" := VArr [] ]}) as (_ & _ & H & _).
  - reflexivity.
  - constructor; [|constructor; [|constructor]];
      (split_and!;
       [reflexivity | apply json_obj, map_Forall_singleton, json_num | by eexists]).
  - constructor; [|constructor; [|constructor]]; reflexivity.
  - apply perm_swap.
  - done.
  - reflexivity.
  - reflexivity.
  - rewrite H. by rewrite insert_singleton_eq.
Qed.

(** C5: on a successful collect, for every list of result records
    [{ position, params }] read from the done key and for every permutation
    of that list, each record's params is written to
    [p.params.value[position]]; hence the aggregate array is ordered by
    branch position (the records of the n branches fill an empty array with
    the results in spawn order) and does not depend on the order of the
    records in the list.  The list is one that the branches of a fork leave
    under the done key: its positions are pairwise distinct. *)
Theorem collect_positions rs rs' p m a :
  params p = VObj m → m !! "value" = Some (VArr a) →
  NoDup rs.*1 → rs ≡ₚ rs' →
  ∃ p' a',
    write_results (branch_records rs) p = Some p'
    ∧ write_results (branch_records rs') p = Some p'
    ∧ get "value" (params p') = VArr a'
    ∧ (∀ i v, (i, v) ∈ rs → a' !! i = Some v)
    ∧ (∀ vs, a = [] → rs ≡ₚ imap (λ i v, (i, v)) vs → a' = vs)
    ∧ (∀ (db db' : store) barrier marker,
         db !! done barrier = Some (branch_records rs ++ [marker]) →
         db' !! done barrier = Some (branch_records rs' ++ [marker]) →
         (collect1 db p barrier).1.2 = inspect p'
         ∧ (collect1 db' p barrier).1.2 = inspect p'
         ∧ (collect1 db p barrier).2 = Proceed
         ∧ (collect1 db' p barrier).2 = Proceed).
Proof.
  intros Hp Hm Hnd Hperm.
  exists (with_params (VObj (<["value" := VArr (array_writes rs a)]> m)) p),
         (array_writes rs a).
  assert (H1 := write_results_array rs p m a Hp Hm).
  assert (H2 := write_results_array rs' p m a Hp Hm).
  rewrite <- (array_writes_permutation rs rs' a Hnd Hperm) in H2.
  fold (branch_records rs) in H1. fold (branch_records rs') in H2.
  split; [exact H1|]. split; [exact H2|]. split; [|split; [|split]].
  - cbn. by rewrite lookup_insert_eq.
  - intros i v Hin. by apply array_writes_lookup.
  - intros vs -> Hvs.
    rewrite (array_writes_permutation _ _ [] Hnd Hvs).
    apply (array_writes_branches_from [] vs).
  - intros db db' barrier marker Hdb Hdb'.
    destruct (brpop_snoc _ _ _ _ Hdb) as (db1 & Hpop & Hrange & _).
    destruct (brpop_snoc _ _ _ _ Hdb') as (db1' & Hpop' & Hrange' & _).
    unfold collect1. by rewrite Hpop, Hpop', Hrange, Hrange', H1, H2.
Qed.

Lemma collect_positions_witness :
  ∃ p' a',
    write_results (branch_records [(1%nat, VStr "b"); (0%nat, VStr "a")]) forked = Some p'
    ∧ write_results (branch_records [(0%nat, VStr "a"); (1%nat, VStr "b")]) forked = Some p'
    ∧ get "value" (params p') = VArr a'
    ∧ a' = [VStr "a"; VStr "b"].
Proof.
  destruct (collect_positions
              [(1%nat, VStr "b"); (0%nat, VStr "a")]
              [(0%nat, VStr "a"); (1%nat, VStr "b")]
              forked {[ "value" := VArr [] ]} [])
    as (p' & a' & H1 & H2 & H3 & _ & H5 & _).
  - reflexivity.
  - reflexivity.
  - apply (bool_decide_unpack _). vm_compute. exact I.
  - apply perm_swap.
  - exists p', a'. repeat split; try assumption.
    apply H5; [reflexivity | apply perm_swap].
Defined.

(** ** Branch termination *)

Lemma join_marker_no_error c j : get "error" (join_marker c j) = VUndefined.
Proof.
  unfold join_marker, get.
  rewrite !lookup_insert_ne by done. by rewrite lookup_singleton_ne.
Qed.

Lemma finish_join_marker p j :
  finish (with_params (join_marker (s p) j) p)
  = VObj {[ "params" := join_marker (s p) j ]}.
Proof. unfold finish. cbn [params with_params]. by rewrite join_marker_no_error. Qed.

(** C6, as stated, fails: the activation of a branch that ends does not
    answer the join marker itself but the marker wrapped in [{ params }]. *)
Lemma branch_answer_is_not_the_bare_marker :
  (main 1 (compile "" (Action None "a")) "u" ended_branch_store ended_branch).2
  ≠ Result (join_marker (s ended_branch)
              {| barrierId := "b"; position := 0; count := 1 |}).
Proof.
  intros H.
  apply (f_equal (λ r, match r with Result v => get "method" v | _ => VNull end)) in H.
  vm_compute in H. discriminate H.
Qed.

(** C6 (amended): when [step] reaches a final state while [p.s.join] is
    present, the conductor pushes [{ position, params }] on the live key with
    the push-only-if-exists operation, renames the live key to the done key
    if and only if the length that the push answers exceeds [join.count],
    sets [p.params] to [{ method: 'join', sessionId, barrierId, position }],
    and the activation answers that marker wrapped as [{ params: marker }]. *)
Theorem branch_termination fuel fsm uuid (db : store) p j :
  final fsm p = true → s_join (s p) = Some j →
  let record := default VUndefined (to_json (result_record (position j) (params p))) in
  let pushed := lpushx (live (barrierId j)) record db in
  let marked := with_params (join_marker (s p) j) p in
  (∀ l, db !! live (barrierId j) = Some l →
        pushed = (<[live (barrierId j) := record :: l]> db, S (length l)))
  ∧ (db !! live (barrierId j) = None → pushed = (db, 0%nat))
  ∧ ∃ db',
      step (S fuel) fsm uuid db p = (db', marked, Finished)
      ∧ ((count j < pushed.2)%nat →
         rename (live (barrierId j)) (done (barrierId j)) pushed.1 = Some db')
      ∧ ((pushed.2 ≤ count j)%nat → db' = pushed.1)
      ∧ settle (step (S fuel) fsm uuid db p)
        = (db', marked, Result (VObj {[ "params" := join_marker (s p) j ]})).
Proof.
  intros Hfinal Hjoin record pushed marked.
  split; [|split].
  - intros l Hl. subst pushed. unfold lpushx. by rewrite Hl.
  - intros Hl. subst pushed. unfold lpushx. by rewrite Hl.
  - assert (Hstep : ∀ db',
        step1 fsm uuid db p = (db', marked, Finished) →
        step (S fuel) fsm uuid db p = (db', marked, Finished)).
    { intros db' H. cbn [step]. by rewrite H. }
    assert (H1 : ∃ db', step1 fsm uuid db p = (db', marked, Finished)
        ∧ ((count j < pushed.2)%nat →
           rename (live (barrierId j)) (done (barrierId j)) pushed.1 = Some db')
        ∧ ((pushed.2 ≤ count j)%nat → db' = pushed.1)).
    { unfold step1. rewrite Hfinal, Hjoin. fold record. fold pushed. fold marked.
      destruct pushed as [db1 len] eqn:Hpushed. cbn [fst snd].
      destruct (Nat.ltb_spec (count j) len) as [Hlt|Hge].
      - assert (Hex : is_Some (db1 !! live (barrierId j))).
        { subst pushed. unfold lpushx in Hpushed.
          destruct (db !! live (barrierId j)) as [l|];
            injection Hpushed as <- <-; [|lia].
          rewrite lookup_insert_eq. by eexists. }
        destruct Hex as [l Hl]. unfold rename. rewrite Hl.
        eexists. split; [reflexivity|]. split; [done|]. lia.
      - exists db1. split; [reflexivity|]. split; [lia|done]. }
    destruct H1 as (db' & Hs1 & Hren & Hkeep).
    exists db'. rewrite (Hstep db' Hs1).
    split; [done|]. split; [done|]. split; [done|].
    cbn [settle]. subst marked. by rewrite finish_join_marker.
Qed.

Lemma branch_termination_witness :
  ∃ db',
    step 1 (compile "" (Action None "a")) "u" ended_branch_store ended_branch
    = (db', with_params (join_marker (s ended_branch)
                           {| barrierId := "b"; position := 0; count := 1 |})
              ended_branch, Finished)
    ∧ db' !! done "b" = Some [VObj {[ "position" := VNum 0;
                                       "params" := VObj {[ "x" := VNum 1 ]} ]};
                              VNum 42]
    ∧ db' !! live "b" = None.
Proof.
  destruct (branch_termination 0 (compile "" (Action None "a")) "u"
              ended_branch_store ended_branch
              {| barrierId := "b"; position := 0; count := 1 |}
              eq_refl eq_refl) as (_ & _ & db' & Hstep & Hren & _).
  exists db'. split; [exact Hstep|].
  assert (Hdb' : Some db' = rename (live "b") (done "b")
            (lpushx (live "b")
               (default VUndefined (to_json (result_record 0 (params ended_branch))))
               ended_branch_store).1).
  { symmetry. apply Hren. vm_compute. lia. }
  vm_compute in Hdb'. injection Hdb' as ->. split; reflexivity.
Defined.

(** ** The [function] combinator *)

(** What [function_params] assigns, for every result. *)
Lemma function_params_cases node p result :
  function_params node p result
  = match result with
    | VUndefined => JSON_clone (params p)
    | VFun =>
        Some (VObj {[ "error" :=
          VStr ("Function combinator evaluated to a function type at AST node root"
                +:+ parent node) ]})
    | _ => JSON_clone result
    end.
Proof.
  unfold function_params, function_result. destruct result; reflexivity.
Qed.


(** The view of the stack after an assignment of [set]: the first frame
    of the view that binds the symbol has received the value. *)
Lemma set_from_view n symbol v stack :
  view_from n (set_from n symbol v stack) = set_first symbol v (view_from n stack).
Proof.
  revert n. induction stack as [|fr rest IH]; intros n; [done|].
  cbn [set_from view_from].
  destruct (frame_let fr) as [[o|]|] eqn:Hlet.
  - destruct n as [|n'].
    + cbn [set_first]. destruct (binds symbol fr) eqn:Hb.
      * cbn [view_from]. unfold let_set at 1. by rewrite Hlet.
      * cbn [view_from]. by rewrite Hlet, IH.
    + cbn [view_from]. by rewrite Hlet, IH.
  - cbn [view_from]. by rewrite Hlet, IH.
  - cbn [view_from]. by rewrite Hlet, IH.
Qed.

(** An assignment of [set] changes no [catch] and no [marker] of the
    stack. *)
Lemma set_from_catch n symbol v stack :
  frame_catch <$> set_from n symbol v stack = frame_catch <$> stack.
Proof.
  revert n. induction stack as [|fr rest IH]; intros n; [done|].
  cbn [set_from].
  destruct (frame_let fr) as [[o|]|] eqn:Hlet; [destruct n as [|n']|..];
    rewrite ?fmap_cons, ?IH; try done.
  destruct (binds symbol fr); rewrite !fmap_cons, ?IH; [|done].
  unfold let_set. by rewrite Hlet.
Qed.

Lemma write_back_catch vars stack :
  frame_catch <$> (write_back vars stack).1 = frame_catch <$> stack.
Proof.
  revert stack. induction vars as [|[name v] vars IH]; intros stack; [done|].
  cbn [write_back]. unfold set_.
  destruct (existsb _ _); [|apply IH].
  destruct (JSON_clone v) as [v'|]; cbn; [|done].
  by rewrite IH, set_from_catch.
Qed.

(** The [function] handler keeps the catch indices of the stack positive. *)
Lemma conductor_function_positive_catches eval node p p' :
  positive_catches (s_stack (s p)) →
  conductor_function eval node p = Some p' →
  positive_catches (s_stack (s p')).
Proof.
  intros Hp. unfold conductor_function, function_then.
  assert (Hinspect : ∀ q v, positive_catches (s_stack (s q)) →
            positive_catches (s_stack (s (inspect (with_params v q))))).
  { intros q v Hq.
    by apply (positive_catches_suffix _ _ (inspect_stack_suffix (with_params v q))). }
  destruct (exec_ node) as [e|]; cbn [run fst snd].
  - destruct (function_params _ _ _) as [v|]; [|done].
    cbn. intros [= <-]. apply Hinspect. cbn [s s_stack with_stack with_params].
    unfold positive_catches in *.
    apply (Forall_fmap frame_catch (λ c, ∀ c', c = Some c' → 0 < c')).
    rewrite write_back_catch.
    by apply (Forall_fmap frame_catch (λ c, ∀ c', c = Some c' → 0 < c')).
  - destruct (function_params _ _ _) as [v|]; [|done].
    cbn. intros [= <-]. by apply Hinspect.
Qed.

(** The promise of the [function] handler is rejected only when [p.params]
    has no JSON text. *)
Lemma conductor_function_settles eval node p :
  to_json (params p) ≠ None → is_Some (conductor_function eval node p).
Proof.
  intros Hp.
  assert (Hleft : ∀ left, to_json (mutated (params p) left) ≠ None).
  { intros left. by destruct (params p), left. }
  assert (Hthen : ∀ q c, to_json (params q) ≠ None → is_Some (function_then node q c)).
  { intros q c Hq. unfold function_then. rewrite function_params_cases.
    apply fmap_is_Some.
    destruct c as [[]|]; cbn [function_catch]; unfold JSON_clone; cbn [to_json];
      try (by eexists); by apply not_eq_None_Some. }
  unfold conductor_function. destruct (exec_ node) as [e|]; [|by apply Hthen].
  unfold run. apply Hthen. cbn [params with_stack with_params]. apply Hleft.
Qed.

(** [run] writes the variables back to the frames of the stack: after
    [x = 7] under the frames of [masked_stack], the topmost frame holds 7
    for [x] and the frames below are as they were. *)
Example run_writes_back :
  s_stack (s (run assigns_x "() => { x = 7 }"
                (activation_at 1 masked_stack (VObj ∅))).1)
  = [let_frame (Some {[ "x" := VNum 7 ]}); let_frame None;
     let_frame (Some {[ "x" := VNum 2 ]});
     let_frame (Some {[ "x" := VNum 3; "y" := VNum 4 ]})].
Proof. vm_compute. reflexivity. Qed.




(** ** Exit on an empty stack *)

(** C9: if an [exit] state executes while [p.s.stack] is empty, no frame is
    popped, the step loop is rejected with [pop from an empty stack], and
    the entry point turns this into the final result
    [{ error: 'Internal error: pop from an empty stack' }]. *)
Theorem exit_on_empty_stack fuel fsm uuid (db : store) p node :
  0 ≤ s_state (s p) → fsm !! Z.to_nat (s_state (s p)) = Some node →
  type node = exit → s_stack (s p) = [] →
  ∃ p',
    step (S fuel) fsm uuid db p = (db, p', Rejected (Reason "pop from an empty stack"))
    ∧ s_stack (s p') = []
    ∧ (settle (step (S fuel) fsm uuid db p)).2
      = Result (VObj {[ "error" := VStr "Internal error: pop from an empty stack" ]})
    ∧ (s_collect (s p) = None → s_resuming (s p) = false →
       (main (S fuel) fsm uuid db p).2
       = Result (VObj {[ "error" := VStr "Internal error: pop from an empty stack" ]})).
Proof.
  intros Hpos Hnode Htype Hstack.
  exists (with_state (s_state (s p) + next_or_1 node) p).
  assert (Hstep : step (S fuel) fsm uuid db p
    = (db, with_state (s_state (s p) + next_or_1 node) p,
       Rejected (Reason "pop from an empty stack"))).
  { cbn [step]. rewrite (step1_at fsm uuid db p node Hpos Hnode).
    unfold conduct. rewrite Htype. cbn [with_state s s_stack]. by rewrite Hstack. }
  split_and!.
  - exact Hstep.
  - done.
  - by rewrite Hstep.
  - intros Hc Hr. unfold main. by rewrite Hc, Hr, Hstep.
Qed.

Lemma exit_on_empty_stack_witness :
  (main 5 (compile "" (Mask None [])) "u" ∅ stray_exit).2
  = Result (VObj {[ "error" := VStr "Internal error: pop from an empty stack" ]}).
Proof.
  destruct (exit_on_empty_stack 4 (compile "" (Mask None [])) "u" ∅ stray_exit
              (mk "" exit)) as (p' & _ & _ & _ & H).
  - vm_compute. discriminate.
  - reflexivity.
  - reflexivity.
  - reflexivity.
  - apply H; reflexivity.
Defined.

(** ** Empty forks *)

Lemma fork_empty {A} uuid p node index ret (it : value → A → value * Z) :
  return_ node = Some ret →
  fork uuid p node index [] it
  = (with_params (VObj {[ "value" := VArr [] ]}) (with_state (index + ret) p), Proceed).
Proof. intros Hret. unfold fork. by rewrite Hret. Qed.

(** C10: a [parallel] state with no task, and a [map] state whose incoming
    [p.params.value] is absent or an empty array (on params that are not
    nullish, so that the property can be read), make [fork] return at once
    with [p.params = { value: [] }] and [p.s.state] at the return target:
    the redis configuration is not looked at, and no store operation,
    barrier or branch invocation is asked for, so the step loop goes on
    without an error even when there is no redis configuration.  This is
    what a step does at the head of every compiled [parallel] node without
    components and of every compiled [map] node. *)
Theorem empty_fork uuid p node index ret :
  return_ node = Some ret →
  let p' := with_params (VObj {[ "value" := VArr [] ]}) (with_state (index + ret) p) in
  (type node = parallel → tasks node = Some [] →
     conduct uuid p node index = (p', Proceed))
  ∧ (type node = map_ → nullish (params p) = false →
     get "value" (params p) = VUndefined ∨ get "value" (params p) = VArr [] →
     conduct uuid p node index = (p', Proceed))
  ∧ get "error" (params p') = VUndefined
  ∧ s_redis (s p') = s_redis (s p)
  ∧ (∀ parent path (db : store),
       s_state (s p) = 0 →
       step1 (compile parent (Parallel path [])) uuid db p
       = (db, with_params (VObj {[ "value" := VArr [] ]}) (with_state 1 p), Proceed))
  ∧ (∀ parent path cs (db : store),
       s_state (s p) = 0 → nullish (params p) = false →
       get "value" (params p) = VUndefined ∨ get "value" (params p) = VArr [] →
       step1 (compile parent (Map path cs)) uuid db p
       = (db, with_params (VObj {[ "value" := VArr [] ]})
                (with_state
                   (Z.of_nat (length (compile_components (path_or path parent) cs)) + 2) p),
          Proceed)).
Proof.
  intros Hret p'.
  assert (Hpar : ∀ q nd i r, return_ nd = Some r → type nd = parallel →
            tasks nd = Some [] →
            conduct uuid q nd i
            = (with_params (VObj {[ "value" := VArr [] ]}) (with_state (i + r) q),
               Proceed)).
  { intros q nd i r Hr Htype Htasks. unfold conduct. rewrite Htype, Htasks.
    by apply fork_empty. }
  assert (Hmap : ∀ q nd i r, return_ nd = Some r → type nd = map_ →
            nullish (params q) = false →
            get "value" (params q) = VUndefined ∨ get "value" (params q) = VArr [] →
            conduct uuid q nd i
            = (with_params (VObj {[ "value" := VArr [] ]}) (with_state (i + r) q),
               Proceed)).
  { intros q nd i r Hr Htype Hnull Hvalue. unfold conduct. rewrite Htype, Hnull.
    destruct Hvalue as [-> | ->]; cbn [map_items truthy]; by apply fork_empty. }
  split_and!.
  - by apply Hpar.
  - by apply Hmap.
  - reflexivity.
  - reflexivity.
  - intros parent path db Hstate. cbn [compile map concat app].
    rewrite !assign_head, stamp_cons.
    set (hd := from_option _ _ _).
    assert (Hhd : type hd = parallel ∧ tasks hd = Some [] ∧ return_ hd = Some 1
                  ∧ next hd = None) by (by destruct path).
    destruct Hhd as (Ht & Hts & Hr & Hn).
    rewrite (step1_at _ uuid db p hd) by (by rewrite Hstate).
    rewrite (Hpar _ hd _ 1 Hr Ht Hts), Hstate. by destruct p as [[]].
  - intros parent path cs db Hstate Hnull Hvalue. cbn [compile].
    change (match cs with
            | [] => [mk ?q empty]
            | [c] => compile ?q c
            | c :: _ :: _ => flat_map (compile ?q) cs
            end) with (compile_components q cs).
    cbn [node_path_of].
    set (tasks := compile_components (path_or path parent) cs).
    rewrite stamp_cons. set (hd := from_option _ _ _).
    assert (Hhd : type hd = map_ ∧ return_ hd = Some (Z.of_nat (length tasks) + 2)
                  ∧ next hd = None) by (by destruct path).
    destruct Hhd as (Ht & Hr & Hn).
    rewrite (step1_at _ uuid db p hd) by (by rewrite Hstate).
    rewrite (Hmap _ hd _ _ Hr Ht) by (by destruct p as [[]]).
    rewrite Hstate. by destruct p as [[]].
Qed.

Lemma empty_fork_witness :
  step 3 (compile "" (Parallel None [])) "u" ∅
       (with_state 0 unconfigured)
  = (∅, with_params (VObj {[ "value" := VArr [] ]}) (with_state 2 unconfigured),
     Finished)
  ∧ conduct "u" unconfigured (set_return 3 (mk "" map_)) 0
    = (with_params (VObj {[ "value" := VArr [] ]}) (with_state 3 unconfigured),
       Proceed).
Proof.
  split; [reflexivity|].
  apply (proj1 (proj2 (empty_fork "u" unconfigured (set_return 3 (mk "" map_)) 0 3
                         eq_refl)));
    [reflexivity | reflexivity | left; reflexivity].
Defined.
